(** * Games API: a shallow embedding of [main.py] and its CRUD contract

    The service stores one table, [game], in a SQLite file and exposes six
    routes over it.  The embedding follows the source top-down:

    - the schema classes [GameBase] / [Game] / [GamePublic] / [GameCreate] /
      [GameUpdate] become records, one module per class, with the
      validation that the declared [Field] constraints impose;
    - the table is the list of its rows in rowid order, with the
      constraints the [Game] class declares for its columns (primary key
      on [name], NOT NULL on every column but the JSON one);
    - a request-scoped [Session] is a state record threaded through a
      small state-and-exception monad; [commit] flushes the unit of work
      atomically or raises and rolls back;
    - each route is its handler run in a fresh session, followed by the
      serialisation step of its [response_model].

    Handlers receive their arguments after routing and body parsing, as
    the Python functions do: a path parameter is a string, a body is an
    instance of its schema class.  Integers are Python's unbounded ones
    until they are bound to a statement: SQLite stores signed 64-bit
    integers and the driver raises [OverflowError] for any other. *)

From Stdlib Require Import ZArith List String Bool Lia.
Import ListNotations.

Local Open Scope string_scope.
Local Open Scope list_scope.
Local Open Scope Z_scope.

(** ** Values *)

(** [datetime.date] *)
Record date : Type := mkdate { year : Z; month : Z; day : Z }.

(** [min_length=1] on a [str] field. *)
Definition min_length_1 (s : string) : bool := negb (String.eqb s EmptyString).

(** What a handler can raise.  Only [HTTPException] is turned into a
    response of its own; every other exception leaves the handler
    unhandled and the server answers 500. *)
Inductive Exception : Type :=
| HTTPException (status_code : Z) (detail : string)
| ValidationError            (* pydantic, raised inside a handler *)
| IntegrityError             (* sqlalchemy.exc, raised by a flush *)
| InvalidRequestError        (* sqlalchemy.exc, misuse of the session *)
| StaleDataError             (* sqlalchemy.orm.exc, a flush that matches no row *)
| OverflowError              (* sqlite3, an integer that does not fit 64 bits *)
| ResponseValidationError.   (* fastapi, response_model mismatch *)

(** A dict as [model_dump] produces it: the keys are field names, so the
    dict is a record of optional entries, [None] for an absent key.  An
    entry of a nullable field holds [None] for Python's [None].  The only
    dicts with a ["name"] key come from [Game.model_dump], where the value
    is a [str]. *)
Record dict : Type := mkdict {
  k_name : option string;
  k_release_date : option (option date);
  k_studio : option (option string);
  k_ratings : option (option Z);
  k_platforms : option (option (list string))
}.

(** ** Schema classes *)

(** SQLAlchemy's per-object state: a fresh object is transient; one loaded
    by the session is persistent and remembers the primary key it was
    loaded under. *)
Inductive InstanceState : Type :=
| Transient
| Persistent (key : string).

(** [class GameCreate(GameBase)]: the four fields of [GameBase], with
    their constraints, and [name: str]. *)
Module GameCreate.
Record t : Type := mk {
  release_date : date;
  studio : string;
  ratings : Z;
  platforms : list string;
  name : string
}.

(** The declared constraints of the class: [studio] has
    [min_length=1]; [name] is a bare [str]. *)
Definition constraints (g : t) : bool := min_length_1 (studio g).

(** [GameCreate] applied to keyword arguments [kwargs]: every field
    is required and none accepts [None]. *)
Definition init (kwargs : dict) : Exception + t :=
  match k_release_date kwargs, k_studio kwargs, k_ratings kwargs,
        k_platforms kwargs, k_name kwargs with
  | Some (Some d), Some (Some s), Some (Some r), Some (Some p), Some n =>
      let g := mk d s r p n in
      if constraints g then inr g else inl ValidationError
  | _, _, _, _, _ => inl ValidationError
  end.
End GameCreate.

(** [class GameUpdate(GameBase)]: the four fields are redeclared as
    [T | None = None], which drops the constraints of [GameBase].  An
    instance remembers which fields the body set ([model_fields_set]): a
    field is either unset, and reads as its default [None], or supplied
    with a value that may itself be [None]. *)
Module GameUpdate.
Inductive field (A : Type) : Type :=
| Unset
| Supplied (value : option A).
Arguments Unset {A}.
Arguments Supplied {A} value.

Record t : Type := mk {
  release_date : field date;
  studio : field string;
  ratings : field Z;
  platforms : field (list string)
}.

(** one entry of [model_dump(exclude_unset=...)] *)
Definition dump {A} (exclude_unset : bool) (f : field A) : option (option A) :=
  match f with
  | Unset => if exclude_unset then None else Some None
  | Supplied value => Some value
  end.

(** [game.model_dump(exclude_unset=...)]; there is no ["name"] key. *)
Definition model_dump (exclude_unset : bool) (g : t) : dict :=
  mkdict None
         (dump exclude_unset (release_date g))
         (dump exclude_unset (studio g))
         (dump exclude_unset (ratings g))
         (dump exclude_unset (platforms g)).

(** the body [{}] *)
Definition empty : t := mk Unset Unset Unset Unset.
End GameUpdate.

(** [class GamePublic(GameBase)]: the response shape. *)
Module GamePublic.
Record t : Type := mk {
  release_date : date;
  studio : string;
  ratings : Z;
  platforms : list string;
  name : string
}.
End GamePublic.

(** [class Game(GameBase, table=True)].  A table model is a plain Python
    object: attribute assignment is not validated, so every attribute that
    [sqlmodel_update] can assign may hold [None]. *)
Module Game.
Record t : Type := mk {
  sa_instance_state : InstanceState;
  name : string;
  release_date : option date;
  studio : option string;
  ratings : option Z;
  platforms : option (list string)
}.

(** [game.model_dump()] *)
Definition model_dump (g : t) : dict :=
  mkdict (Some (name g)) (Some (release_date g)) (Some (studio g))
         (Some (ratings g)) (Some (platforms g)).

(** [setattr(self, key, value)] for one dict entry, when the key is
    there. *)
Definition setattr {A} (entry : option A) (old : A) : A :=
  match entry with
  | Some value => value
  | None => old
  end.

(** [game_db.sqlmodel_update(game_data)]: every key of the dict that is
    a field of [Game] is assigned; the instance state is untouched. *)
Definition sqlmodel_update (self : t) (obj : dict) : t :=
  mk (sa_instance_state self)
     (setattr (k_name obj) (name self))
     (setattr (k_release_date obj) (release_date self))
     (setattr (k_studio obj) (studio self))
     (setattr (k_ratings obj) (ratings self))
     (setattr (k_platforms obj) (platforms self)).

(** [Game.model_validate(game)] for a [GameCreate] instance: the fields
    are read off the instance and validated against [Game]'s own
    constraints, [min_length=1] on [name] and on [studio]; the result is
    a transient object. *)
Definition model_validate (game : GameCreate.t) : Exception + t :=
  if min_length_1 (GameCreate.name game)
     && min_length_1 (GameCreate.studio game)
  then inr (mk Transient
               (GameCreate.name game)
               (Some (GameCreate.release_date game))
               (Some (GameCreate.studio game))
               (Some (GameCreate.ratings game))
               (Some (GameCreate.platforms game)))
  else inl ValidationError.
End Game.

(** The keyword arguments of the [GameCreate] that [update_game] builds:
    the entries of [game.model_dump()] and [name=game_name]. *)
Definition with_name (d : dict) (name : string) : dict :=
  mkdict (Some name) (k_release_date d) (k_studio d) (k_ratings d)
         (k_platforms d).

(** Validation of a returned [Game] against [response_model=GamePublic]:
    the four inherited fields are required, non-null and constrained as
    in [GameBase]; [name] is a bare [str]. *)
Definition GamePublic_validate (g : Game.t) : Exception + GamePublic.t :=
  match Game.release_date g, Game.studio g, Game.ratings g, Game.platforms g with
  | Some d, Some s, Some r, Some p =>
      if min_length_1 s
      then inr (GamePublic.mk d s r p (Game.name g))
      else inl ResponseValidationError
  | _, _, _, _ => inl ResponseValidationError
  end.

(** [response_model=Sequence[GamePublic]] *)
Fixpoint GamePublic_validate_all (gs : list Game.t) : Exception + list GamePublic.t :=
  match gs with
  | [] => inr []
  | g :: gs' =>
      match GamePublic_validate g with
      | inl e => inl e
      | inr p =>
          match GamePublic_validate_all gs' with
          | inl e => inl e
          | inr ps => inr (p :: ps)
          end
      end
  end.

(** ** The [game] table *)

(** One row.  The columns come from the fields of [Game]: a required field
    gives a NOT NULL column; [platforms] is the explicit [Column(JSON)],
    which is nullable. *)
Record row : Type := mkrow {
  c_name : string;
  c_release_date : date;
  c_studio : string;
  c_ratings : Z;
  c_platforms : option (list string)
}.

(** The table, in rowid order. *)
Definition Table : Type := list row.

Definition has_name (name : string) (r : row) : bool := String.eqb (c_name r) name.

(** [SELECT ... FROM game WHERE name = ?] *)
Definition select_by_name (db : Table) (name : string) : option row :=
  find (has_name name) db.

(** A row as the ORM loads it. *)
Definition load (r : row) : Game.t :=
  Game.mk (Persistent (c_name r)) (c_name r) (Some (c_release_date r))
          (Some (c_studio r)) (Some (c_ratings r)) (c_platforms r).

(** An object as the ORM writes it; [None] when a NOT NULL column would
    receive NULL. *)
Definition to_row (g : Game.t) : option row :=
  match Game.release_date g, Game.studio g, Game.ratings g with
  | Some d, Some s, Some r => Some (mkrow (Game.name g) d s r (Game.platforms g))
  | _, _, _ => None
  end.

(** An integer that SQLite can hold, and that the driver can bind as a
    parameter: a signed 64-bit one. *)
Definition sqlite_integer (z : Z) : bool :=
  (- 2 ^ 63 <=? z) && (z <? 2 ^ 63).

(** The parameters of an INSERT or an UPDATE of the object can be bound:
    its ratings, the one integer column, fit. *)
Definition binds (g : Game.t) : bool :=
  match Game.ratings g with
  | Some z => sqlite_integer z
  | None => true
  end.

(** The effect of [UPDATE ... WHERE name = key] on one row. *)
Definition replace_row (key : string) (new old : row) : row :=
  if has_name key old then new else old.

(** What a flush emits. *)
Inductive statement : Type :=
| INSERT (g : Game.t)
| UPDATE (key : string) (g : Game.t)
| DELETE (key : string).

Definition is_some {A} (o : option A) : bool :=
  match o with Some _ => true | None => false end.

(** One statement against the table: its parameters are bound first,
    which fails on an integer out of range, and the statement then runs
    under the table's constraints. *)
Definition execute (st : statement) (db : Table) : Exception + Table :=
  match st with
  | INSERT g =>
      if negb (binds g) then inl OverflowError
      else
        match to_row g with
        | None => inl IntegrityError
        | Some r =>
            if is_some (select_by_name db (c_name r))
            then inl IntegrityError
            else inr (db ++ [r])
        end
  | UPDATE key g =>
      if negb (binds g) then inl OverflowError
      else
        match to_row g with
        | None => inl IntegrityError
        | Some r =>
            if negb (is_some (select_by_name db key)) then inl StaleDataError
            else if negb (String.eqb (c_name r) key)
                    && is_some (select_by_name db (c_name r))
            then inl IntegrityError
            else inr (map (replace_row key r) db)
        end
  | DELETE key =>
      if is_some (select_by_name db key)
      then inr (filter (fun r => negb (has_name key r)) db)
      else inl StaleDataError
  end.

Fixpoint flush (sts : list statement) (db : Table) : Exception + Table :=
  match sts with
  | [] => inr db
  | st :: sts' =>
      match execute st db with
      | inl e => inl e
      | inr db' => flush sts' db'
      end
  end.

(** [LIMIT ? OFFSET ?] as SQLite, the engine of [sqlite_url], evaluates
    it: a negative offset counts as zero and a negative limit is no
    limit. *)
Definition limit_offset {A} (limit offset : Z) (rows : list A) : list A :=
  let rest := skipn (Z.to_nat offset) rows in
  if limit <? 0 then rest else firstn (Z.to_nat limit) rest.

(** ** The session *)

(** A session on the engine: the table it reads and commits to, and the
    statements its unit of work holds for the next flush. *)
Record Session : Type := mkSession {
  database : Table;
  unit_of_work : list statement
}.

Definition M (A : Type) : Type := Session -> (Exception + A) * Session.

Definition ret {A} (a : A) : M A := fun s => (inr a, s).

Definition raise {A} (e : Exception) : M A := fun s => (inl e, s).

Definition bind {A B} (m : M A) (k : A -> M B) : M B :=
  fun s =>
    match m s with
    | (inl e, s') => (inl e, s')
    | (inr a, s') => k a s'
    end.

Notation "x <- m ;; k" := (bind m (fun x => k))
  (at level 61, m at next level, right associativity).
Notation "m ;;; k" := (bind m (fun _ => k))
  (at level 61, right associativity).

(** a plain function that may raise, called from a handler *)
Definition call {A} (r : Exception + A) : M A := fun s => (r, s).

(** [session.get(Game, name)] *)
Definition session_get (name : string) : M (option Game.t) :=
  fun s => (inr (option_map load (select_by_name (database s) name)), s).

(** [session.exec(select(Game).offset(offset).limit(limit)).all()]; the
    limit and the offset are bound as integer parameters. *)
Definition session_exec_select (offset limit : Z) : M (list Game.t) :=
  fun s =>
    if sqlite_integer limit && sqlite_integer offset
    then (inr (map load (limit_offset limit offset (database s))), s)
    else (inl OverflowError, s).

(** [session.add(obj)]: a transient object is scheduled for INSERT, a
    persistent one has its state written by an UPDATE keyed on the
    identity it was loaded under. *)
Definition session_add (obj : Game.t) : M unit :=
  fun s =>
    let st := match Game.sa_instance_state obj with
              | Transient => INSERT obj
              | Persistent key => UPDATE key obj
              end in
    (inr tt, mkSession (database s) (unit_of_work s ++ [st])).

(** [session.delete(obj)] *)
Definition session_delete (obj : Game.t) : M unit :=
  fun s =>
    match Game.sa_instance_state obj with
    | Transient => (inl InvalidRequestError, s)
    | Persistent key =>
        (inr tt, mkSession (database s) (unit_of_work s ++ [DELETE key]))
    end.

(** [session.commit()]: the flush runs in one transaction; an error rolls
    it back and is raised. *)
Definition session_commit : M unit :=
  fun s =>
    match flush (unit_of_work s) (database s) with
    | inl e => (inl e, mkSession (database s) [])
    | inr db' => (inr tt, mkSession db' [])
    end.

(** [session.refresh(obj)]: after a commit the object's identity is its
    primary key; its attributes are read back from that row. *)
Definition session_refresh (obj : Game.t) : M Game.t :=
  fun s =>
    match select_by_name (database s) (Game.name obj) with
    | Some r => (inr (load r), s)
    | None => (inl InvalidRequestError, s)
    end.

(** ** Handlers *)

Definition not_found {A} : M A := raise (HTTPException 404 "Game not found").

(** [read_games] *)
Definition read_games (offset limit : Z) : M (list Game.t) :=
  games <- session_exec_select offset limit ;;
  ret games.

(** [read_game] *)
Definition read_game (game_name : string) : M Game.t :=
  game_db <- session_get game_name ;;
  match game_db with
  | None => not_found
  | Some game_db => ret game_db
  end.

(** [create_game] *)
Definition create_game (game : GameCreate.t) : M Game.t :=
  game_db <- call (Game.model_validate game) ;;
  session_add game_db ;;;
  session_commit ;;;
  game_db <- session_refresh game_db ;;
  ret game_db.

(** [update_game] *)
Definition update_game (game_name : string) (game : GameUpdate.t) : M Game.t :=
  game_db <- session_get game_name ;;
  match game_db with
  | None => not_found
  | Some game_db =>
      game_create <-
        call (GameCreate.init
                (with_name (GameUpdate.model_dump false game) game_name)) ;;
      game_update <- call (Game.model_validate game_create) ;;
      let game_data := Game.model_dump game_update in
      let game_db := Game.sqlmodel_update game_db game_data in
      session_add game_db ;;;
      session_commit ;;;
      game_db <- session_refresh game_db ;;
      ret game_db
  end.

(** [partial_update_game] *)
Definition partial_update_game (game_name : string) (game : GameUpdate.t)
  : M Game.t :=
  game_db <- session_get game_name ;;
  match game_db with
  | None => not_found
  | Some game_db =>
      let game_data := GameUpdate.model_dump true game in
      let game_db := Game.sqlmodel_update game_db game_data in
      session_add game_db ;;;
      session_commit ;;;
      game_db <- session_refresh game_db ;;
      ret game_db
  end.

(** [delete_game] *)
Definition delete_game (game_name : string) : M Game.t :=
  game_db <- session_get game_name ;;
  match game_db with
  | None => not_found
  | Some game_db =>
      session_delete game_db ;;;
      session_commit ;;;
      ret game_db
  end.

(** ** Routes *)

Inductive Content : Type :=
| JSON_game (g : GamePublic.t)        (* a [GamePublic] *)
| JSON_games (gs : list GamePublic.t) (* a [Sequence[GamePublic]] *)
| JSON_object (d : dict)              (* [jsonable_encoder] of a model *)
| JSON_detail (detail : string)       (* the body of an [HTTPException] *)
| Validation_errors                   (* the body of a 422 *)
| Internal_Server_Error.

Record Response : Type := mkResponse {
  status_code : Z;
  content : Content
}.

Definition exception_response (e : Exception) : Response :=
  match e with
  | HTTPException status detail => mkResponse status (JSON_detail detail)
  | _ => mkResponse 500 Internal_Server_Error
  end.

Definition unprocessable : Response := mkResponse 422 Validation_errors.

(** A request that reached its handler: [get_session] opens a session on
    the engine and closes it when the request is over, which discards
    whatever was not committed; the value returned is serialised as the
    route declares. *)
Definition route {A} (success : Z) (serialize : A -> Exception + Content)
    (handler : M A) (db : Table) : Response * Table :=
  let '(result, session) := handler (mkSession db []) in
  let response :=
    match result with
    | inl e => exception_response e
    | inr a =>
        match serialize a with
        | inl e => exception_response e
        | inr c => mkResponse success c
        end
    end in
  (response, database session).

Definition as_GamePublic (g : Game.t) : Exception + Content :=
  match GamePublic_validate g with
  | inl e => inl e
  | inr p => inr (JSON_game p)
  end.

Definition as_GamePublic_list (gs : list Game.t) : Exception + Content :=
  match GamePublic_validate_all gs with
  | inl e => inl e
  | inr ps => inr (JSON_games ps)
  end.

(** no [response_model] *)
Definition as_json (g : Game.t) : Exception + Content :=
  inr (JSON_object (Game.model_dump g)).

Definition default {A} (d : A) (o : option A) : A :=
  match o with Some a => a | None => d end.

(** [GET /games], [offset: int = 0], [limit: Annotated[int, Query(le=100)] = 100] *)
Definition GET_games (offset limit : option Z) (db : Table) : Response * Table :=
  let offset := default 0 offset in
  let limit := default 100 limit in
  if limit <=? 100
  then route 200 as_GamePublic_list (read_games offset limit) db
  else (unprocessable, db).

(** [GET /games/{game_name}] *)
Definition GET_game (game_name : string) : Table -> Response * Table :=
  route 200 as_GamePublic (read_game game_name).

(** [POST /games/], [status_code=status.HTTP_201_CREATED] *)
Definition POST_games (game : GameCreate.t) (db : Table) : Response * Table :=
  if GameCreate.constraints game
  then route 201 as_GamePublic (create_game game) db
  else (unprocessable, db).

(** [PUT /games/{game_name}] *)
Definition PUT_game (game_name : string) (game : GameUpdate.t)
  : Table -> Response * Table :=
  route 200 as_GamePublic (update_game game_name game).

(** [PATCH /games/{game_name}] *)
Definition PATCH_game (game_name : string) (game : GameUpdate.t)
  : Table -> Response * Table :=
  route 200 as_GamePublic (partial_update_game game_name game).

(** [DELETE /games/{game_name}] *)
Definition DELETE_game (game_name : string) : Table -> Response * Table :=
  route 200 as_json (delete_game game_name).

(** ** The example of the specification *)

Definition chrono_trigger : GameCreate.t :=
  GameCreate.mk (mkdate 1995 3 11) "Square" 10 ["SNES"] "Chrono Trigger".

Definition chrono_trigger_public : GamePublic.t :=
  GamePublic.mk (mkdate 1995 3 11) "Square" 10 ["SNES"] "Chrono Trigger".

(** The example with ratings of [2 ^ 63], one more than SQLite holds. *)
Definition chrono_trigger_big : GameCreate.t :=
  GameCreate.mk (mkdate 1995 3 11) "Square" (2 ^ 63) ["SNES"] "Chrono Trigger".

Definition chrono_trigger_row : row :=
  mkrow "Chrono Trigger" (mkdate 1995 3 11) "Square" 10 (Some ["SNES"]).

(** ** Derived definitions *)

(** The row that a flush writes for an object, when the statement can be
    bound and no NOT NULL column receives NULL. *)
Definition flushed (g : Game.t) : option row :=
  if binds g then to_row g else None.

(** The names in the table are unique: [name] is the primary key. *)
Definition primary_key (db : Table) : Prop := NoDup (map c_name db).

(** The three calls that end the writing handlers: add, commit, refresh. *)
Definition save (game_db : Game.t) : M Game.t :=
  session_add game_db ;;;
  session_commit ;;;
  game_db <- session_refresh game_db ;;
  ret game_db.

(** The object that [partial_update_game] hands to the session. *)
Definition patched (old : row) (game : GameUpdate.t) : Game.t :=
  Game.sqlmodel_update (load old) (GameUpdate.model_dump true game).

(** The response that a route with [response_model=GamePublic] gives for a
    returned object. *)
Definition respond_GamePublic (success : Z) (g : Game.t) : Response :=
  match as_GamePublic g with
  | inl e => exception_response e
  | inr c => mkResponse success c
  end.

(** The object that [update_game] validates before it touches the stored
    one: the [Game] built from the body and the path name. *)
Definition full_update (game_name : string) (game : GameUpdate.t)
  : Exception + Game.t :=
  match GameCreate.init
          (with_name (GameUpdate.model_dump false game) game_name) with
  | inl e => inl e
  | inr game_create => Game.model_validate game_create
  end.

(** The object that [update_game] hands to the session. *)
Definition replaced (old : row) (game_update : Game.t) : Game.t :=
  Game.sqlmodel_update (load old) (Game.model_dump game_update).

(** A field of the body that carries a value. *)
Definition supplied {A} (f : GameUpdate.field A) : bool :=
  match f with
  | GameUpdate.Supplied (Some _) => true
  | _ => false
  end.

Definition all_supplied (game : GameUpdate.t) : bool :=
  supplied (GameUpdate.release_date game) && supplied (GameUpdate.studio game)
  && supplied (GameUpdate.ratings game) && supplied (GameUpdate.platforms game).

(** The body of a PUT that supplies the four fields. *)
Definition full_body (d : date) (s : string) (r : Z) (p : list string)
  : GameUpdate.t :=
  GameUpdate.mk (GameUpdate.Supplied (Some d)) (GameUpdate.Supplied (Some s))
                (GameUpdate.Supplied (Some r)) (GameUpdate.Supplied (Some p)).

Definition game_not_found : Response :=
  mkResponse 404 (JSON_detail "Game not found").

(** The row that a valid creation inserts, and its public view. *)
Definition created_row (game : GameCreate.t) : row :=
  mkrow (GameCreate.name game) (GameCreate.release_date game)
        (GameCreate.studio game) (GameCreate.ratings game)
        (Some (GameCreate.platforms game)).

Definition public_view (game : GameCreate.t) : GamePublic.t :=
  GamePublic.mk (GameCreate.release_date game) (GameCreate.studio game)
                (GameCreate.ratings game) (GameCreate.platforms game)
                (GameCreate.name game).

(** The body [{"ratings": v}], [v] a number or [null]. *)
Definition ratings_only (v : option Z) : GameUpdate.t :=
  GameUpdate.mk GameUpdate.Unset GameUpdate.Unset (GameUpdate.Supplied v)
                GameUpdate.Unset.

(** What a table looks like after an update route: as before, or with the
    rows of one key rewritten by a row of that same key. *)
Inductive rewritten (db : Table) : Table -> Prop :=
| rewritten_none : rewritten db db
| rewritten_key (key : string) (r : row) :
    c_name r = key -> rewritten db (map (replace_row key r) db).

Definition secret_of_mana_row : row :=
  mkrow "Secret of Mana" (mkdate 1993 8 6) "Square" 9 (Some ["SNES"]).

(** The body whose only entry sets ["studio"] to the empty string. *)
Definition empty_studio : GameUpdate.t :=
  GameUpdate.mk GameUpdate.Unset (GameUpdate.Supplied (Some EmptyString))
                GameUpdate.Unset GameUpdate.Unset.

(** The body [{"platforms": null}]. *)
Definition null_platforms : GameUpdate.t :=
  GameUpdate.mk GameUpdate.Unset GameUpdate.Unset GameUpdate.Unset
                (GameUpdate.Supplied None).

(** ** The application *)

(** A request that [app] routes to one of its six handlers. *)
Inductive Request : Type :=
| GET_games_request (offset limit : option Z)
| GET_game_request (game_name : string)
| POST_games_request (game : GameCreate.t)
| PUT_game_request (game_name : string) (game : GameUpdate.t)
| PATCH_game_request (game_name : string) (game : GameUpdate.t)
| DELETE_game_request (game_name : string).

(** [app], the application object of [main.py]: the route of a request. *)
Module Main.
Definition app (request : Request) : Table -> Response * Table :=
  match request with
  | GET_games_request offset limit => GET_games offset limit
  | GET_game_request game_name => GET_game game_name
  | POST_games_request game => POST_games game
  | PUT_game_request game_name game => PUT_game game_name game
  | PATCH_game_request game_name game => PATCH_game game_name game
  | DELETE_game_request game_name => DELETE_game game_name
  end.
End Main.

(** Requests served one after the other, each on the table the one before
    left; the requests are synchronous and the engine admits one writer. *)
Fixpoint serve (requests : list Request) (db : Table) : list Response * Table :=
  match requests with
  | [] => ([], db)
  | request :: requests' =>
      let '(response, db') := Main.app request db in
      let '(responses, db'') := serve requests' db' in
      (response :: responses, db'')
  end.

Definition is_PATCH (request : Request) : bool :=
  match request with
  | PATCH_game_request _ _ => true
  | _ => false
  end.

(** A row that satisfies what [Game] and [GamePublic] declare: a
    non-empty name, a non-empty studio, platforms that are not null. *)
Definition valid_row (r : row) : bool :=
  min_length_1 (c_name r) && min_length_1 (c_studio r)
  && is_some (c_platforms r).

Definition named_row (r : row) : bool := min_length_1 (c_name r).


(** The public view of a row, when it has one. *)
Definition row_public (r : row) : option GamePublic.t :=
  match c_platforms r with
  | Some p =>
      if min_length_1 (c_studio r)
      then Some (GamePublic.mk (c_release_date r) (c_studio r) (c_ratings r)
                               p (c_name r))
      else None
  | None => None
  end.

(** What a PATCH leaves in a column: the stored value for an unset field,
    the supplied value, possibly null, for a supplied one. *)
Definition merged {A} (f : GameUpdate.field A) (old : option A) : option A :=
  match f with
  | GameUpdate.Unset => old
  | GameUpdate.Supplied value => value
  end.

(** * Properties *)

(** ** Lookups in the table *)

Section Lookup.

Lemma select_by_name_name (db : Table) (name : string) (r : row) :
  select_by_name db name = Some r -> c_name r = name.
Proof.
  unfold select_by_name; intros H.
  apply find_some in H as [_ H].
  now apply String.eqb_eq in H.
Qed.

Lemma select_by_name_app (db : Table) (r : row) (name : string) :
  select_by_name (db ++ [r]) name =
  match select_by_name db name with
  | Some r' => Some r'
  | None => if has_name name r then Some r else None
  end.
Proof.
  unfold select_by_name.
  induction db as [|r' db IH]; simpl.
  - reflexivity.
  - destruct (has_name name r'); [reflexivity | exact IH].
Qed.

Variable key : string.
Variable new : row.
Hypothesis new_key : c_name new = key.

Let replace : row -> row := replace_row key new.

Lemma select_replace_key (db : Table) (old : row) :
  select_by_name db key = Some old ->
  select_by_name (map replace db) key = Some new.
Proof.
  unfold select_by_name, replace, replace_row.
  induction db as [|r db IH]; simpl; [discriminate|].
  destruct (has_name key r) eqn:E.
  - intros _. unfold has_name. rewrite new_key, String.eqb_refl. reflexivity.
  - rewrite E. exact IH.
Qed.

Lemma select_replace_other (db : Table) (name : string) :
  name <> key ->
  select_by_name (map replace db) name = select_by_name db name.
Proof.
  intros Hne. unfold select_by_name, replace, replace_row.
  induction db as [|r db IH]; simpl; [reflexivity|].
  destruct (has_name key r) eqn:E.
  - assert (has_name name r = false) as ->.
    { unfold has_name in *. apply String.eqb_eq in E. rewrite E.
      apply String.eqb_neq. congruence. }
    assert (has_name name new = false) as ->.
    { unfold has_name. rewrite new_key. apply String.eqb_neq. congruence. }
    exact IH.
  - destruct (has_name name r); [reflexivity | exact IH].
Qed.

Lemma names_replace (db : Table) :
  map c_name (map replace db) = map c_name db.
Proof.
  unfold replace, replace_row.
  induction db as [|r db IH]; simpl; [reflexivity|].
  rewrite IH. f_equal.
  destruct (has_name key r) eqn:E; [|reflexivity].
  unfold has_name in E. apply String.eqb_eq in E. congruence.
Qed.

End Lookup.

(** On a table with unique names, writing back the row stored under a
    key changes nothing. *)
Lemma replace_row_stored (db : Table) (key : string) (old : row) :
  select_by_name db key = Some old ->
  NoDup (map c_name db) ->
  map (replace_row key old) db = db.
Proof.
  unfold select_by_name, replace_row.
  induction db as [|r db IH]; simpl; [reflexivity|].
  intros Hsel Hnd. inversion Hnd as [|? ? Hnotin Hnd']; subst.
  destruct (has_name key r) eqn:E.
  - injection Hsel as ->. f_equal.
    unfold has_name in E. apply String.eqb_eq in E.
    clear IH Hnd Hnd'. induction db as [|r db IH]; simpl; [reflexivity|].
    simpl in Hnotin.
    destruct (has_name key r) eqn:E'.
    + unfold has_name in E'. apply String.eqb_eq in E'.
      exfalso. apply Hnotin. left. congruence.
    + f_equal. apply IH. intros Hin. apply Hnotin. now right.
  - f_equal. now apply IH.
Qed.

Lemma select_filter_key (db : Table) (key : string) :
  select_by_name (filter (fun r => negb (has_name key r)) db) key = None.
Proof.
  unfold select_by_name.
  induction db as [|r db IH]; simpl; [reflexivity|].
  destruct (has_name key r) eqn:E; simpl; [exact IH|].
  rewrite E. exact IH.
Qed.

Lemma min_length_1_true (s : string) : s <> EmptyString -> min_length_1 s = true.
Proof.
  intros H. unfold min_length_1.
  apply negb_true_iff, String.eqb_neq, H.
Qed.

(** ** The routes, unfolded at a stored and at an absent name *)

Ltac unfold_session :=
  unfold bind, call, ret, raise, not_found, session_get, session_add,
    session_commit, session_refresh, session_delete, session_exec_select.

Lemma save_statement (g : Game.t) (st : statement) (db : Table) :
  st = match Game.sa_instance_state g with
       | Transient => INSERT g
       | Persistent key => UPDATE key g
       end ->
  save g (mkSession db []) =
  match execute st db with
  | inl e => (inl e, mkSession db [])
  | inr db' =>
      match select_by_name db' (Game.name g) with
      | Some r => (inr (load r), mkSession db' [])
      | None => (inl InvalidRequestError, mkSession db' [])
      end
  end.
Proof.
  intros ->. unfold save. unfold_session. simpl.
  destruct (execute _ db) as [e|db']; simpl; [reflexivity|].
  destruct (select_by_name db' _); reflexivity.
Qed.

Lemma to_row_name (g : Game.t) (r : row) :
  to_row g = Some r -> c_name r = Game.name g.
Proof.
  unfold to_row.
  destruct (Game.release_date g), (Game.studio g), (Game.ratings g);
    try discriminate.
  now intros [= <-].
Qed.

Lemma flushed_to_row (g : Game.t) (r : row) :
  flushed g = Some r -> binds g = true /\ to_row g = Some r.
Proof.
  unfold flushed. destruct (binds g); [now split | discriminate].
Qed.

Lemma flushed_name (g : Game.t) (r : row) :
  flushed g = Some r -> c_name r = Game.name g.
Proof.
  intros H. apply flushed_to_row in H as [_ H]. now apply to_row_name.
Qed.

(** An UPDATE that keeps the key, on a table that has the key. *)
Lemma execute_UPDATE_same_key (db : Table) (key : string) (old r : row)
    (g : Game.t) :
  select_by_name db key = Some old ->
  flushed g = Some r ->
  c_name r = key ->
  execute (UPDATE key g) db =
  inr (map (replace_row key r) db).
Proof.
  intros Hsel Hrow Hr. apply flushed_to_row in Hrow as [Hb Hrow].
  unfold execute.
  rewrite Hb, Hrow, Hsel, Hr, String.eqb_refl. reflexivity.
Qed.

(** An object that cannot be flushed: the statement raises, and the
    server answers 500. *)
Lemma execute_refused (g : Game.t) (db : Table) :
  flushed g = None ->
  (forall key, exists e,
      execute (UPDATE key g) db = inl e /\
      exception_response e = mkResponse 500 Internal_Server_Error) /\
  (exists e,
      execute (INSERT g) db = inl e /\
      exception_response e = mkResponse 500 Internal_Server_Error).
Proof.
  unfold flushed, execute. intros H.
  destruct (binds g); cbn [negb].
  - rewrite H. split; [intros key|]; now exists IntegrityError.
  - split; [intros key|]; now exists OverflowError.
Qed.

(** A handler that ends by saving a loaded object whose name is the key
    it was loaded under. *)
Lemma route_saves (handler : M Game.t) (db : Table) (name : string)
    (old : row) (g : Game.t) :
  handler (mkSession db []) = save g (mkSession db []) ->
  select_by_name db name = Some old ->
  Game.sa_instance_state g = Persistent name ->
  Game.name g = name ->
  route 200 as_GamePublic handler db =
  match flushed g with
  | None => (mkResponse 500 Internal_Server_Error, db)
  | Some r =>
      (respond_GamePublic 200 (load r), map (replace_row name r) db)
  end.
Proof.
  intros Hrun Hsel Hstate Hname. unfold route. rewrite Hrun.
  rewrite (save_statement g (UPDATE name g)) by now rewrite Hstate.
  destruct (flushed g) as [r|] eqn:Hrow.
  - assert (c_name r = name) as Hr
      by (rewrite (flushed_name _ _ Hrow); exact Hname).
    rewrite (execute_UPDATE_same_key _ _ _ _ _ Hsel Hrow Hr), Hname.
    rewrite (select_replace_key name r Hr db old Hsel).
    reflexivity.
  - destruct (proj1 (execute_refused g db Hrow) name) as (e & -> & He).
    now rewrite He.
Qed.

Lemma partial_update_game_stored (db : Table) (name : string) (old : row)
    (game : GameUpdate.t) :
  select_by_name db name = Some old ->
  partial_update_game name game (mkSession db []) =
  save (patched old game) (mkSession db []).
Proof.
  intros Hsel. unfold partial_update_game, session_get.
  unfold bind at 1. cbn [database]. rewrite Hsel. reflexivity.
Qed.

Lemma PATCH_game_stored (db : Table) (name : string) (old : row)
    (game : GameUpdate.t) :
  select_by_name db name = Some old ->
  PATCH_game name game db =
  match flushed (patched old game) with
  | None => (mkResponse 500 Internal_Server_Error, db)
  | Some r =>
      (respond_GamePublic 200 (load r),
       map (replace_row name r) db)
  end.
Proof.
  intros Hsel.
  pose proof (select_by_name_name _ _ _ Hsel) as Hname.
  unfold PATCH_game.
  apply (route_saves _ db name old (patched old game)
           (partial_update_game_stored _ _ _ _ Hsel) Hsel).
  - cbn. now rewrite Hname.
  - exact Hname.
Qed.

Lemma full_update_raises (game_name : string) (game : GameUpdate.t)
    (e : Exception) :
  full_update game_name game = inl e -> e = ValidationError.
Proof.
  unfold full_update, GameCreate.init, Game.model_validate.
  destruct game as [[|[d|]] [|[s|]] [|[r|]] [|[p|]]]; cbn;
    try (now intros [= <-]).
  destruct (GameCreate.constraints _); [|now intros [= <-]].
  cbn. destruct (_ && _); [discriminate | now intros [= <-]].
Qed.

Lemma full_update_returns (game_name : string) (game : GameUpdate.t)
    (game_update : Game.t) :
  full_update game_name game = inr game_update ->
  exists d s r p,
    game = full_body d s r p /\
    game_update = Game.mk Transient game_name (Some d) (Some s) (Some r) (Some p).
Proof.
  unfold full_update, GameCreate.init, Game.model_validate.
  destruct game as [[|[d|]] [|[s|]] [|[r|]] [|[p|]]]; cbn; try discriminate.
  destruct (GameCreate.constraints _); [|discriminate].
  cbn. destruct (_ && _); [|discriminate].
  intros [= <-]. now exists d, s, r, p.
Qed.

Lemma full_update_missing (game_name : string) (game : GameUpdate.t) :
  all_supplied game = false ->
  full_update game_name game = inl ValidationError.
Proof.
  unfold full_update, GameCreate.init, all_supplied.
  destruct game as [[|[d|]] [|[s|]] [|[r|]] [|[p|]]]; cbn;
    try reflexivity; discriminate.
Qed.

Lemma full_update_valid (game_name : string) (d : date) (s : string) (r : Z)
    (p : list string) :
  game_name <> EmptyString -> s <> EmptyString ->
  full_update game_name (full_body d s r p) =
  inr (Game.mk Transient game_name (Some d) (Some s) (Some r) (Some p)).
Proof.
  intros Hn Hs.
  unfold full_update, GameCreate.init, Game.model_validate,
    GameCreate.constraints. cbn -[min_length_1].
  rewrite (min_length_1_true _ Hs). cbn -[min_length_1].
  rewrite (min_length_1_true _ Hs), (min_length_1_true _ Hn). reflexivity.
Qed.

Lemma update_game_stored (db : Table) (name : string) (old : row)
    (game : GameUpdate.t) :
  select_by_name db name = Some old ->
  update_game name game (mkSession db []) =
  match full_update name game with
  | inl e => (inl e, mkSession db [])
  | inr game_update => save (replaced old game_update) (mkSession db [])
  end.
Proof.
  intros Hsel. unfold update_game, session_get, full_update.
  unfold bind at 1. cbn [database]. rewrite Hsel. cbn [option_map].
  unfold bind at 1, call.
  destruct (GameCreate.init _) as [e|gc]; [reflexivity|].
  unfold bind at 1.
  destruct (Game.model_validate gc); reflexivity.
Qed.

Lemma PUT_game_stored (db : Table) (name : string) (old : row)
    (game : GameUpdate.t) :
  select_by_name db name = Some old ->
  PUT_game name game db =
  match full_update name game with
  | inl e => (mkResponse 500 Internal_Server_Error, db)
  | inr game_update =>
      match flushed (replaced old game_update) with
      | None => (mkResponse 500 Internal_Server_Error, db)
      | Some r =>
          (respond_GamePublic 200 (load r),
           map (replace_row name r) db)
      end
  end.
Proof.
  intros Hsel.
  pose proof (select_by_name_name _ _ _ Hsel) as Hname.
  destruct (full_update name game) as [e|gu] eqn:Hfull.
  - unfold PUT_game, route.
    rewrite (update_game_stored _ _ _ _ Hsel), Hfull.
    apply full_update_raises in Hfull as ->. reflexivity.
  - unfold PUT_game.
    apply (route_saves _ db name old (replaced old gu)); [|exact Hsel| |].
    + now rewrite (update_game_stored _ _ _ _ Hsel), Hfull.
    + cbn. now rewrite Hname.
    + now apply full_update_returns in Hfull as (d & s & r & p & _ & ->).
Qed.

(** The row that a PUT writes: the validated fields of the body under
    the path name, when the ratings can be bound. *)
Lemma flushed_replaced (old : row) (name : string) (d : date) (s : string)
    (r : Z) (p : list string) :
  flushed (replaced old (Game.mk Transient name (Some d) (Some s) (Some r)
                                 (Some p))) =
  if sqlite_integer r then Some (mkrow name d s r (Some p)) else None.
Proof.
  unfold flushed, binds. cbn. now destruct (sqlite_integer r).
Qed.

Lemma GET_game_stored (db : Table) (name : string) (old : row) :
  select_by_name db name = Some old ->
  GET_game name db = (respond_GamePublic 200 (load old), db).
Proof.
  intros Hsel. unfold GET_game, route, read_game. unfold_session.
  cbn [database]. rewrite Hsel. reflexivity.
Qed.

Lemma DELETE_game_stored (db : Table) (name : string) (old : row) :
  select_by_name db name = Some old ->
  DELETE_game name db =
  (mkResponse 200 (JSON_object (Game.model_dump (load old))),
   filter (fun r => negb (has_name name r)) db).
Proof.
  intros Hsel.
  pose proof (select_by_name_name _ _ _ Hsel) as Hname.
  unfold DELETE_game, route, delete_game. unfold_session.
  cbn [database]. rewrite Hsel.
  cbn [option_map load Game.sa_instance_state unit_of_work database app flush
       execute].
  rewrite Hname, Hsel. reflexivity.
Qed.

Lemma absent_name (db : Table) (name : string) (game : GameUpdate.t) :
  select_by_name db name = None ->
  GET_game name db = (game_not_found, db) /\
  PUT_game name game db = (game_not_found, db) /\
  PATCH_game name game db = (game_not_found, db) /\
  DELETE_game name db = (game_not_found, db).
Proof.
  intros Hsel.
  unfold GET_game, PUT_game, PATCH_game, DELETE_game, route, read_game,
    update_game, partial_update_game, delete_game.
  unfold_session. cbn [database]. rewrite Hsel.
  repeat split; reflexivity.
Qed.

Lemma create_game_run (db : Table) (game : GameCreate.t) :
  create_game game (mkSession db []) =
  match Game.model_validate game with
  | inl e => (inl e, mkSession db [])
  | inr game_db => save game_db (mkSession db [])
  end.
Proof.
  unfold create_game. unfold bind at 1, call.
  destruct (Game.model_validate game); reflexivity.
Qed.

Lemma POST_games_cases (db : Table) (game : GameCreate.t) :
  POST_games game db =
  if negb (GameCreate.constraints game) then (unprocessable, db)
  else if negb (min_length_1 (GameCreate.name game))
  then (mkResponse 500 Internal_Server_Error, db)
  else if negb (sqlite_integer (GameCreate.ratings game))
  then (mkResponse 500 Internal_Server_Error, db)
  else if is_some (select_by_name db (GameCreate.name game))
  then (mkResponse 500 Internal_Server_Error, db)
  else (mkResponse 201 (JSON_game (public_view game)),
        db ++ [created_row game]).
Proof.
  unfold POST_games, GameCreate.constraints.
  destruct (min_length_1 (GameCreate.studio game)) eqn:Hs; [|reflexivity].
  cbn [negb]. unfold route. rewrite create_game_run.
  unfold Game.model_validate. rewrite Hs.
  destruct (min_length_1 (GameCreate.name game)) eqn:Hn; [|reflexivity].
  cbn [negb andb].
  set (g := Game.mk _ _ _ _ _ _).
  rewrite (save_statement g (INSERT g) db eq_refl). subst g.
  cbn [execute binds to_row Game.name Game.release_date Game.studio
       Game.ratings Game.platforms c_name].
  destruct (sqlite_integer (GameCreate.ratings game)); [|reflexivity].
  cbn [negb].
  destruct (select_by_name db (GameCreate.name game)) as [old|] eqn:Hsel;
    [reflexivity|].
  cbn [is_some]. fold (created_row game).
  rewrite select_by_name_app, Hsel.
  unfold has_name. cbn [created_row c_name]. rewrite String.eqb_refl.
  unfold as_GamePublic, GamePublic_validate.
  cbn -[min_length_1]. rewrite Hs. reflexivity.
Qed.

Lemma POST_games_existing (db : Table) (game : GameCreate.t) (old : row) :
  select_by_name db (GameCreate.name game) = Some old ->
  POST_games game db =
  (if GameCreate.constraints game
   then mkResponse 500 Internal_Server_Error
   else unprocessable, db).
Proof.
  intros Hsel. rewrite POST_games_cases, Hsel.
  destruct (GameCreate.constraints game); [|reflexivity].
  cbn [negb is_some].
  destruct (negb (min_length_1 _)); [reflexivity|].
  now destruct (negb (sqlite_integer _)).
Qed.

Lemma POST_games_fresh (db : Table) (game : GameCreate.t) :
  GameCreate.name game <> EmptyString ->
  GameCreate.studio game <> EmptyString ->
  sqlite_integer (GameCreate.ratings game) = true ->
  select_by_name db (GameCreate.name game) = None ->
  POST_games game db =
  (mkResponse 201 (JSON_game (public_view game)), db ++ [created_row game]).
Proof.
  intros Hn Hs Hr Hsel. rewrite POST_games_cases, Hsel, Hr.
  unfold GameCreate.constraints.
  now rewrite (min_length_1_true _ Hs), (min_length_1_true _ Hn).
Qed.

(** ** Creation *)

(** C1: when the table already holds a game under the name of the payload,
    POST /games/ does not answer 201 and writes nothing: the table is the
    one before the request, so the game stored under that name keeps its
    field values.  A payload that passes request validation is answered
    500, the unhandled IntegrityError of the insert. *)
Theorem create_existing_name_is_rejected (db : Table) (game : GameCreate.t)
    (old : row) :
  select_by_name db (GameCreate.name game) = Some old ->
  status_code (fst (POST_games game db)) <> 201 /\
  snd (POST_games game db) = db /\
  select_by_name (snd (POST_games game db)) (GameCreate.name game) = Some old /\
  (GameCreate.constraints game = true ->
   fst (POST_games game db) = mkResponse 500 Internal_Server_Error).
Proof.
  intros Hsel.
  rewrite (POST_games_existing db game old Hsel). cbn [fst snd].
  repeat split; try assumption.
  - destruct (GameCreate.constraints game); cbn; lia.
  - now intros ->.
Qed.

Lemma create_existing_name_is_rejected_witness :
  select_by_name [chrono_trigger_row] "Chrono Trigger" = Some chrono_trigger_row /\
  status_code (fst (POST_games chrono_trigger [chrono_trigger_row])) <> 201 /\
  snd (POST_games chrono_trigger [chrono_trigger_row]) = [chrono_trigger_row].
Proof.
  split; [reflexivity|].
  pose proof (create_existing_name_is_rejected [chrono_trigger_row]
                chrono_trigger chrono_trigger_row eq_refl) as (H1 & H2 & _).
  exact (conj H1 H2).
Defined.

(** C2, as the code has it: for a valid payload (non-empty name and
    studio) whose ratings fit a signed 64-bit integer and whose name is
    not in the table, POST /games/ answers 201 with the payload's fields
    and the following GET /games/{name} answers 200 with the same five
    field values. *)
Theorem create_then_get_same_fields (db : Table) (game : GameCreate.t) :
  GameCreate.name game <> EmptyString ->
  GameCreate.studio game <> EmptyString ->
  sqlite_integer (GameCreate.ratings game) = true ->
  select_by_name db (GameCreate.name game) = None ->
  exists db',
    POST_games game db = (mkResponse 201 (JSON_game (public_view game)), db') /\
    GET_game (GameCreate.name game) db' =
    (mkResponse 200 (JSON_game (public_view game)), db').
Proof.
  intros Hn Hs Hr Hsel.
  exists (db ++ [created_row game]). split.
  - exact (POST_games_fresh db game Hn Hs Hr Hsel).
  - rewrite (GET_game_stored _ _ (created_row game)).
    + unfold respond_GamePublic, as_GamePublic, GamePublic_validate.
      cbn -[min_length_1]. rewrite (min_length_1_true _ Hs). reflexivity.
    + rewrite select_by_name_app, Hsel. unfold has_name. cbn.
      now rewrite String.eqb_refl.
Qed.

Lemma create_then_get_same_fields_witness :
  exists db',
    POST_games chrono_trigger [] =
    (mkResponse 201 (JSON_game chrono_trigger_public), db') /\
    GET_game "Chrono Trigger" db' =
    (mkResponse 200 (JSON_game chrono_trigger_public), db').
Proof.
  apply (create_then_get_same_fields [] chrono_trigger);
    [discriminate | discriminate | reflexivity | reflexivity].
Defined.

(** C2, as stated, fails on a payload whose ratings do not fit 64 bits:
    the payload is valid, its name is not in the table, and POST /games/
    answers 500 and stores nothing, so that the following GET answers
    404. *)
Lemma create_beyond_int64_is_refused :
  GameCreate.name chrono_trigger_big <> EmptyString /\
  GameCreate.studio chrono_trigger_big <> EmptyString /\
  select_by_name [] (GameCreate.name chrono_trigger_big) = None /\
  POST_games chrono_trigger_big [] = (mkResponse 500 Internal_Server_Error, []) /\
  GET_game (GameCreate.name chrono_trigger_big)
           (snd (POST_games chrono_trigger_big [])) =
  (mkResponse 404 (JSON_detail "Game not found"), []).
Proof.
  repeat split; try discriminate; reflexivity.
Qed.

(** ** Partial update *)

(** C3: for a game stored under [name], PATCH /games/{name} with a body
    that supplies only [ratings] leaves a row under [name] whose name,
    release_date, studio and platforms are the ones before; its ratings
    are the supplied number when that number fits a signed 64-bit integer
    (a number that does not, and a supplied null, are refused by the
    store and ratings stay too); every lookup under another name is
    unchanged. *)
Theorem patch_ratings_only_frame (db : Table) (name : string) (old : row)
    (v : option Z) :
  select_by_name db name = Some old ->
  exists new,
    select_by_name (snd (PATCH_game name (ratings_only v) db)) name = Some new /\
    c_name new = c_name old /\
    c_release_date new = c_release_date old /\
    c_studio new = c_studio old /\
    c_platforms new = c_platforms old /\
    c_ratings new =
    match v with
    | Some r => if sqlite_integer r then r else c_ratings old
    | None => c_ratings old
    end /\
    forall other, other <> name ->
      select_by_name (snd (PATCH_game name (ratings_only v) db)) other =
      select_by_name db other.
Proof.
  intros Hsel.
  pose proof (select_by_name_name _ _ _ Hsel) as Hname.
  rewrite (PATCH_game_stored _ _ _ _ Hsel).
  unfold flushed, binds.
  cbn [patched ratings_only Game.sqlmodel_update GameUpdate.model_dump
       GameUpdate.dump GameUpdate.release_date GameUpdate.studio
       GameUpdate.ratings GameUpdate.platforms Game.setattr Game.ratings
       k_name k_release_date k_studio k_ratings k_platforms load].
  destruct v as [r|]; [destruct (sqlite_integer r)|]; cbn.
  - eexists. split.
    + eapply select_replace_key; [exact Hname | exact Hsel].
    + cbn. repeat split; try reflexivity.
      intros other Hne. now apply select_replace_other.
  - exists old. repeat split; easy.
  - exists old. repeat split; easy.
Qed.

Lemma patch_ratings_only_frame_witness :
  exists new,
    select_by_name
      (snd (PATCH_game "Chrono Trigger" (ratings_only (Some 9))
              [chrono_trigger_row])) "Chrono Trigger" = Some new /\
    c_name new = "Chrono Trigger" /\
    c_release_date new = mkdate 1995 3 11 /\
    c_studio new = "Square" /\
    c_platforms new = Some ["SNES"] /\
    c_ratings new = 9.
Proof.
  destruct (patch_ratings_only_frame [chrono_trigger_row] "Chrono Trigger"
              chrono_trigger_row (Some 9) eq_refl)
    as (new & H1 & H2 & H3 & H4 & H5 & H6 & _).
  exists new. repeat split; assumption.
Defined.

(** C10, as the code has it: for a game stored under [name], PATCH
    /games/{name} with the body [{}] changes no field of the stored game
    and no lookup in the table, and a table with unique names is left
    exactly as it was; when the stored game is well formed, with a
    non-empty studio, a platforms list and ratings that fit a signed
    64-bit integer, the answer is 200 with that game. *)
Theorem patch_empty_is_identity (db : Table) (name : string) (old : row) :
  select_by_name db name = Some old ->
  let db' := snd (PATCH_game name GameUpdate.empty db) in
  select_by_name db' name = Some old /\
  (forall other, select_by_name db' other = select_by_name db other) /\
  (NoDup (map c_name db) -> db' = db) /\
  (forall p, c_studio old <> EmptyString -> c_platforms old = Some p ->
     sqlite_integer (c_ratings old) = true ->
     fst (PATCH_game name GameUpdate.empty db) =
     mkResponse 200
       (JSON_game (GamePublic.mk (c_release_date old) (c_studio old)
                                 (c_ratings old) p (c_name old)))).
Proof.
  intros Hsel.
  pose proof (select_by_name_name _ _ _ Hsel) as Hname.
  rewrite (PATCH_game_stored _ _ _ _ Hsel).
  assert (flushed (patched old GameUpdate.empty) =
          if sqlite_integer (c_ratings old) then Some old else None) as ->
    by (destruct old; reflexivity).
  assert (select_by_name (map (replace_row name old) db) name = Some old) as Hk
    by (apply (select_replace_key name old Hname db old Hsel)).
  destruct (sqlite_integer (c_ratings old)); cbn [fst snd]; repeat split;
    try discriminate; try assumption; try reflexivity.
  - intros other. destruct (String.eqb_spec other name) as [->|Hne].
    + now rewrite Hk.
    + now apply select_replace_other.
  - intros Hpk. now apply replace_row_stored.
  - intros p Hs Hp _.
    unfold respond_GamePublic, as_GamePublic, GamePublic_validate.
    cbn -[min_length_1]. rewrite Hp, (min_length_1_true _ Hs). reflexivity.
Qed.

Lemma patch_empty_is_identity_witness :
  select_by_name [chrono_trigger_row] "Chrono Trigger" = Some chrono_trigger_row /\
  PATCH_game "Chrono Trigger" GameUpdate.empty [chrono_trigger_row] =
  (mkResponse 200 (JSON_game chrono_trigger_public), [chrono_trigger_row]).
Proof.
  split; [reflexivity|].
  destruct (patch_empty_is_identity [chrono_trigger_row] "Chrono Trigger"
              chrono_trigger_row eq_refl) as (_ & _ & Hdb & Hresp).
  specialize (Hresp ["SNES"]).
  rewrite (surjective_pairing (PATCH_game _ _ _)).
  rewrite Hdb, Hresp.
  - reflexivity.
  - discriminate.
  - reflexivity.
  - reflexivity.
  - repeat constructor; cbn; intuition.
Defined.

(** C10, as stated, fails on a game that the service itself stores: after
    POST /games/ of the specification's example and a PATCH that sets its
    studio to the empty string, the game is stored under its name and the
    PATCH with the body [{}] is answered 500, not 200; the table is
    unchanged. *)
Lemma empty_patch_of_stored_game_answers_500 :
  let db := snd (PATCH_game "Chrono Trigger" empty_studio
                   (snd (POST_games chrono_trigger []))) in
  select_by_name db "Chrono Trigger" =
  Some (mkrow "Chrono Trigger" (mkdate 1995 3 11) EmptyString 10 (Some ["SNES"])) /\
  PATCH_game "Chrono Trigger" GameUpdate.empty db =
  (mkResponse 500 Internal_Server_Error, db).
Proof.
  cbv zeta. split; reflexivity.
Qed.

(** ** Full update *)

(** C4, as the code has it: for a game stored under [name], PUT
    /games/{name} needs the four
    non-key fields.  A body that leaves one out (or sets it to null) is
    refused with 500 and nothing is written: the request is never
    completed by taking the missing field from the stored row, and the
    answer of a PUT is the same whatever the stored row held.  A body that
    supplies the four fields, with a non-empty studio and ratings that fit
    a signed 64-bit integer, is answered 200 and the row under [name]
    holds exactly the supplied values; lookups under other names are
    unchanged. *)
Theorem put_requires_every_field_and_replaces (db : Table) (name : string)
    (old : row) (game : GameUpdate.t) :
  select_by_name db name = Some old ->
  (all_supplied game = false ->
   PUT_game name game db = (mkResponse 500 Internal_Server_Error, db)) /\
  (forall db2 old2, select_by_name db2 name = Some old2 ->
   fst (PUT_game name game db2) = fst (PUT_game name game db)) /\
  (forall d s r p,
     game = full_body d s r p -> name <> EmptyString -> s <> EmptyString ->
     sqlite_integer r = true ->
     exists db',
       PUT_game name game db =
       (mkResponse 200 (JSON_game (GamePublic.mk d s r p name)), db') /\
       select_by_name db' name = Some (mkrow name d s r (Some p)) /\
       forall other, other <> name ->
         select_by_name db' other = select_by_name db other).
Proof.
  intros Hsel.
  pose proof (select_by_name_name _ _ _ Hsel) as Hname.
  repeat split.
  - intros Hmiss. rewrite (PUT_game_stored _ _ _ _ Hsel).
    now rewrite (full_update_missing _ _ Hmiss).
  - intros db2 old2 Hsel2.
    rewrite (PUT_game_stored _ _ _ _ Hsel), (PUT_game_stored _ _ _ _ Hsel2).
    destruct (full_update name game) as [e|gu] eqn:Hfull; [reflexivity|].
    apply full_update_returns in Hfull as (d & s & r & p & _ & ->).
    rewrite !flushed_replaced. now destruct (sqlite_integer r).
  - intros d s r p -> Hn Hs Hr.
    rewrite (PUT_game_stored _ _ _ _ Hsel), (full_update_valid _ _ _ _ _ Hn Hs).
    rewrite flushed_replaced, Hr.
    eexists. split; [|split].
    + unfold respond_GamePublic, as_GamePublic, GamePublic_validate.
      cbn -[min_length_1]. rewrite (min_length_1_true _ Hs). reflexivity.
    + exact (select_replace_key name (mkrow name d s r (Some p)) eq_refl
               db old Hsel).
    + intros other Hne. now apply select_replace_other.
Qed.

Lemma put_requires_every_field_and_replaces_witness :
  PUT_game "Chrono Trigger" (ratings_only (Some 3)) [chrono_trigger_row] =
  (mkResponse 500 Internal_Server_Error, [chrono_trigger_row]) /\
  exists db',
    PUT_game "Chrono Trigger" (full_body (mkdate 2008 11 20) "Square Enix" 9 ["DS"])
             [chrono_trigger_row] =
    (mkResponse 200
       (JSON_game (GamePublic.mk (mkdate 2008 11 20) "Square Enix" 9 ["DS"]
                                 "Chrono Trigger")), db') /\
    select_by_name db' "Chrono Trigger" =
    Some (mkrow "Chrono Trigger" (mkdate 2008 11 20) "Square Enix" 9 (Some ["DS"])).
Proof.
  split.
  - apply (put_requires_every_field_and_replaces [chrono_trigger_row]
             "Chrono Trigger" chrono_trigger_row (ratings_only (Some 3)) eq_refl).
    reflexivity.
  - destruct (put_requires_every_field_and_replaces [chrono_trigger_row]
                "Chrono Trigger" chrono_trigger_row
                (full_body (mkdate 2008 11 20) "Square Enix" 9 ["DS"]) eq_refl)
      as (_ & _ & H).
    destruct (H _ _ _ _ eq_refl) as (db' & H1 & H2 & _);
      [discriminate | discriminate | reflexivity |].
    exists db'. split; assumption.
Defined.

(** C4, as stated, fails on a body that supplies the four fields with
    ratings that do not fit 64 bits: on the stored example, the PUT is
    answered 500 and the stored row is not replaced. *)
Lemma put_beyond_int64_is_refused :
  select_by_name [chrono_trigger_row] "Chrono Trigger" = Some chrono_trigger_row /\
  all_supplied (full_body (mkdate 2008 11 20) "Square Enix" (2 ^ 63) ["DS"])
  = true /\
  PUT_game "Chrono Trigger"
           (full_body (mkdate 2008 11 20) "Square Enix" (2 ^ 63) ["DS"])
           [chrono_trigger_row] =
  (mkResponse 500 Internal_Server_Error, [chrono_trigger_row]).
Proof.
  repeat split.
Qed.

(** ** Deletion and absent names *)

(** C5: for a game stored under [name], DELETE /games/{name} answers 200
    with the deleted game and leaves no row under [name], and the
    following GET /games/{name} answers 404. *)
Theorem delete_then_get_not_found (db : Table) (name : string) (old : row) :
  select_by_name db name = Some old ->
  exists db',
    DELETE_game name db =
    (mkResponse 200 (JSON_object (Game.model_dump (load old))), db') /\
    select_by_name db' name = None /\
    GET_game name db' = (mkResponse 404 (JSON_detail "Game not found"), db').
Proof.
  intros Hsel. eexists. split; [|split].
  - exact (DELETE_game_stored db name old Hsel).
  - apply select_filter_key.
  - apply (absent_name _ name GameUpdate.empty), select_filter_key.
Qed.

Lemma delete_then_get_not_found_witness :
  DELETE_game "Chrono Trigger" [chrono_trigger_row] =
  (mkResponse 200 (JSON_object (Game.model_dump (load chrono_trigger_row))), []) /\
  GET_game "Chrono Trigger" [] =
  (mkResponse 404 (JSON_detail "Game not found"), []).
Proof.
  destruct (delete_then_get_not_found [chrono_trigger_row] "Chrono Trigger"
              chrono_trigger_row eq_refl) as (db' & H1 & _ & H3).
  assert (db' = []) as ->.
  { apply (f_equal snd) in H1. cbn in H1. now subst db'. }
  split; assumption.
Defined.

(** C6: when no row is stored under the path name, GET, PUT, PATCH and
    DELETE on /games/{name} each answer 404 with the detail
    "Game not found", and the table is unchanged. *)
Theorem absent_name_is_404 (db : Table) (name : string) (game : GameUpdate.t) :
  select_by_name db name = None ->
  let not_found_response := mkResponse 404 (JSON_detail "Game not found") in
  GET_game name db = (not_found_response, db) /\
  PUT_game name game db = (not_found_response, db) /\
  PATCH_game name game db = (not_found_response, db) /\
  DELETE_game name db = (not_found_response, db).
Proof.
  intros Hsel. exact (absent_name db name game Hsel).
Qed.

Lemma absent_name_is_404_witness :
  GET_game "Secret of Mana" [chrono_trigger_row] =
  (mkResponse 404 (JSON_detail "Game not found"), [chrono_trigger_row]) /\
  PUT_game "Secret of Mana" (full_body (mkdate 1993 8 6) "Square" 9 ["SNES"])
           [chrono_trigger_row] =
  (mkResponse 404 (JSON_detail "Game not found"), [chrono_trigger_row]) /\
  PATCH_game "Secret of Mana" (full_body (mkdate 1993 8 6) "Square" 9 ["SNES"])
             [chrono_trigger_row] =
  (mkResponse 404 (JSON_detail "Game not found"), [chrono_trigger_row]) /\
  DELETE_game "Secret of Mana" [chrono_trigger_row] =
  (mkResponse 404 (JSON_detail "Game not found"), [chrono_trigger_row]).
Proof.
  apply (absent_name_is_404 [chrono_trigger_row] "Secret of Mana"). reflexivity.
Defined.

(** ** The key *)

Lemma stored_names_kept (db : Table) (key : string) (r : row) :
  c_name r = key ->
  map c_name (map (replace_row key r) db) = map c_name db /\
  forall name old,
    select_by_name db name = Some old ->
    exists new,
      select_by_name (map (replace_row key r) db) name = Some new /\
      c_name new = c_name old.
Proof.
  intros Hr. split; [exact (names_replace key r Hr db)|].
  intros name old Hsel.
  pose proof (select_by_name_name _ _ _ Hsel) as Hname.
  destruct (String.eqb_spec name key) as [->|Hne].
  - exists r. split; [|congruence].
    exact (select_replace_key key r Hr db old Hsel).
  - exists old. split; [|reflexivity].
    now rewrite (select_replace_other key r Hr db name Hne).
Qed.

Lemma PUT_game_rewrites (db : Table) (name : string) (game : GameUpdate.t) :
  rewritten db (snd (PUT_game name game db)).
Proof.
  destruct (select_by_name db name) as [old|] eqn:Hsel.
  - pose proof (select_by_name_name _ _ _ Hsel) as Hname.
    rewrite (PUT_game_stored _ _ _ _ Hsel).
    destruct (full_update name game) as [e|gu] eqn:Hfull; [constructor|].
    apply full_update_returns in Hfull as (d & s & r & p & _ & ->).
    rewrite flushed_replaced.
    destruct (sqlite_integer r); cbn; now constructor.
  - destruct (absent_name db name game Hsel) as (_ & -> & _). constructor.
Qed.

Lemma PATCH_game_rewrites (db : Table) (name : string) (game : GameUpdate.t) :
  rewritten db (snd (PATCH_game name game db)).
Proof.
  destruct (select_by_name db name) as [old|] eqn:Hsel.
  - pose proof (select_by_name_name _ _ _ Hsel) as Hname.
    rewrite (PATCH_game_stored _ _ _ _ Hsel).
    destruct (flushed (patched old game)) as [r|] eqn:Hrow; [|constructor].
    cbn. constructor. rewrite (flushed_name _ _ Hrow). exact Hname.
  - destruct (absent_name db name game Hsel) as (_ & _ & -> & _). constructor.
Qed.

Lemma rewritten_names (db db' : Table) :
  rewritten db db' ->
  map c_name db' = map c_name db /\
  forall name old,
    select_by_name db name = Some old ->
    exists new, select_by_name db' name = Some new /\ c_name new = c_name old.
Proof.
  intros [|key r Hr].
  - split; [reflexivity|]. intros name old H. now exists old.
  - now apply stored_names_kept.
Qed.

(** C8: whatever the path name and the body of a PUT or of a PATCH, the
    names in the table after the request are the names before it, row by
    row; every game stored before is still stored under its name, with
    that name.  No update renames a row. *)
Theorem update_never_renames (db : Table) (path_name : string)
    (game : GameUpdate.t) :
  (map c_name (snd (PUT_game path_name game db)) = map c_name db /\
   map c_name (snd (PATCH_game path_name game db)) = map c_name db) /\
  forall name old,
    select_by_name db name = Some old ->
    (exists new,
        select_by_name (snd (PUT_game path_name game db)) name = Some new /\
        c_name new = c_name old) /\
    (exists new,
        select_by_name (snd (PATCH_game path_name game db)) name = Some new /\
        c_name new = c_name old).
Proof.
  destruct (rewritten_names _ _ (PUT_game_rewrites db path_name game))
    as [Hput Hput'].
  destruct (rewritten_names _ _ (PATCH_game_rewrites db path_name game))
    as [Hpatch Hpatch'].
  repeat split; auto.
Qed.

Lemma update_never_renames_witness :
  exists new,
    select_by_name
      (snd (PUT_game "Chrono Trigger"
              (full_body (mkdate 2008 11 20) "Square Enix" 9 ["DS"])
              [chrono_trigger_row])) "Chrono Trigger" = Some new /\
    c_name new = "Chrono Trigger".
Proof.
  destruct (update_never_renames [chrono_trigger_row] "Chrono Trigger"
              (full_body (mkdate 2008 11 20) "Square Enix" 9 ["DS"]))
    as [_ H].
  destruct (H "Chrono Trigger" chrono_trigger_row eq_refl) as [Hput _].
  exact Hput.
Defined.

(** ** Listing *)

Lemma GamePublic_validate_all_length (gs : list Game.t)
    (ps : list GamePublic.t) :
  GamePublic_validate_all gs = inr ps -> List.length ps = List.length gs.
Proof.
  revert ps. induction gs as [|g gs IH]; simpl; intros ps.
  - now intros [= <-].
  - destruct (GamePublic_validate g); [discriminate|].
    destruct (GamePublic_validate_all gs) as [|ps']; [discriminate|].
    intros [= <-]. simpl. f_equal. now apply IH.
Qed.

Lemma limit_offset_length {A} (limit offset : Z) (rows : list A) :
  0 <= limit ->
  Z.of_nat (List.length (limit_offset limit offset rows)) <= limit.
Proof.
  intros Hl. unfold limit_offset.
  destruct (Z.ltb_spec limit 0); [lia|].
  pose proof (firstn_le_length (Z.to_nat limit)
                (skipn (Z.to_nat offset) rows)).
  lia.
Qed.

Lemma sqlite_integer_spec (z : Z) :
  sqlite_integer z = true <-> - 2 ^ 63 <= z < 2 ^ 63.
Proof.
  unfold sqlite_integer. rewrite andb_true_iff, Z.leb_le, Z.ltb_lt. tauto.
Qed.

Lemma GET_games_run (offset limit : Z) (db : Table) :
  limit <= 100 ->
  GET_games (Some offset) (Some limit) db =
  (if sqlite_integer limit && sqlite_integer offset
   then
     match as_GamePublic_list (map load (limit_offset limit offset db)) with
     | inl e => exception_response e
     | inr c => mkResponse 200 c
     end
   else mkResponse 500 Internal_Server_Error, db).
Proof.
  intros Hl. unfold GET_games. cbn [default].
  destruct (Z.leb_spec limit 100); [|lia].
  unfold route, read_games. unfold_session. cbn [database].
  now destruct (sqlite_integer limit && sqlite_integer offset).
Qed.

(** A list request with a limit between 0 and 100 returns at most [limit]
    games. *)
Lemma list_within_limit (offset limit : Z) (db db' : Table)
    (gs : list GamePublic.t) :
  0 <= limit <= 100 ->
  GET_games (Some offset) (Some limit) db = (mkResponse 200 (JSON_games gs), db') ->
  Z.of_nat (List.length gs) <= limit.
Proof.
  intros [Hl Hu]. rewrite (GET_games_run _ _ _ Hu).
  destruct (sqlite_integer limit && sqlite_integer offset); [|discriminate].
  unfold as_GamePublic_list.
  destruct (GamePublic_validate_all _) as [e|ps] eqn:Hall.
  - destruct e; discriminate.
  - intros [= <- _].
    rewrite (GamePublic_validate_all_length _ _ Hall), List.length_map.
    now apply limit_offset_length.
Qed.

(** A negative limit passes validation and selects every row from the
    offset on. *)
Lemma negative_limit_is_no_limit {A} (limit offset : Z) (rows : list A) :
  limit < 0 ->
  limit_offset limit offset rows = skipn (Z.to_nat offset) rows.
Proof.
  intros Hl. unfold limit_offset.
  destruct (Z.ltb_spec limit 0); [reflexivity | lia].
Qed.

(** C7, on the code: GET /games?limit=-1 passes the validation of [limit]
    ([-1 <= 100]) and, on a table of two games, answers 200 with both of
    them: the returned sequence is longer than [limit]. *)
Theorem negative_limit_returns_more_than_limit :
  let db := [chrono_trigger_row; secret_of_mana_row] in
  exists gs,
    GET_games None (Some (-1)) db = (mkResponse 200 (JSON_games gs), db) /\
    List.length gs = 2%nat /\
    ~ Z.of_nat (List.length gs) <= -1.
Proof.
  cbv zeta. eexists. split; [reflexivity|]. split; [reflexivity|]. cbn. lia.
Qed.

(** ** Stored entities *)

(** C9, on the code: after POST /games/ of the specification's example on
    the empty table, PATCH /games/Chrono%20Trigger with the body that
    sets ["studio"] to the empty string commits a row whose studio is the
    empty string, and with the body [{"platforms": null}] a row whose
    platforms are null.
    Both requests are answered 500, by the validation of the response,
    after the commit; the row then fails the same validation on every
    later GET. *)
Theorem patch_stores_invalid_game :
  let db := snd (POST_games chrono_trigger []) in
  let db1 := snd (PATCH_game "Chrono Trigger" empty_studio db) in
  let db2 := snd (PATCH_game "Chrono Trigger" null_platforms db) in
  db = [chrono_trigger_row] /\
  (PATCH_game "Chrono Trigger" empty_studio db =
   (mkResponse 500 Internal_Server_Error,
    [mkrow "Chrono Trigger" (mkdate 1995 3 11) EmptyString 10 (Some ["SNES"])]) /\
   option_map c_studio (select_by_name db1 "Chrono Trigger") = Some EmptyString /\
   fst (GET_game "Chrono Trigger" db1) = mkResponse 500 Internal_Server_Error) /\
  (PATCH_game "Chrono Trigger" null_platforms db =
   (mkResponse 500 Internal_Server_Error,
    [mkrow "Chrono Trigger" (mkdate 1995 3 11) "Square" 10 None]) /\
   option_map c_platforms (select_by_name db2 "Chrono Trigger") = Some None /\
   fst (GET_game "Chrono Trigger" db2) = mkResponse 500 Internal_Server_Error).
Proof.
  cbv zeta. repeat split; reflexivity.
Qed.

(** ** The primary key *)

Lemma select_absent_not_in (db : Table) (name : string) :
  select_by_name db name = None -> ~ In name (map c_name db).
Proof.
  unfold select_by_name.
  induction db as [|r db IH]; simpl; [tauto|].
  destruct (has_name name r) eqn:E; [discriminate|].
  intros Hsel [Hin|Hin].
  - unfold has_name in E. apply String.eqb_neq in E. contradiction.
  - now apply IH.
Qed.

Lemma primary_key_insert (db : Table) (r : row) :
  primary_key db ->
  select_by_name db (c_name r) = None ->
  primary_key (db ++ [r]).
Proof.
  unfold primary_key. intros Hpk Hsel.
  apply select_absent_not_in in Hsel.
  induction db as [|r' db IH]; simpl.
  - constructor; [tauto | constructor].
  - inversion Hpk as [|? ? Hnotin Hpk']; subst. simpl in Hsel.
    constructor.
    + rewrite map_app, in_app_iff. simpl. intros [Hin|[Heq|[]]]; [tauto|].
      apply Hsel. now left.
    + apply IH; [assumption|]. intros Hin. apply Hsel. now right.
Qed.

Lemma primary_key_delete (db : Table) (key : string) :
  primary_key db ->
  primary_key (filter (fun r => negb (has_name key r)) db).
Proof.
  unfold primary_key.
  induction db as [|r db IH]; simpl; [trivial|].
  intros Hpk. inversion Hpk as [|? ? Hnotin Hpk']; subst.
  destruct (negb (has_name key r)); simpl; [|now apply IH].
  constructor; [|now apply IH].
  intros Hin. apply Hnotin.
  apply in_map_iff in Hin as (r' & Hname & Hin).
  apply filter_In in Hin as [Hin _].
  apply in_map_iff. now exists r'.
Qed.

Lemma POST_games_table (db : Table) (game : GameCreate.t) :
  snd (POST_games game db) = db \/
  select_by_name db (GameCreate.name game) = None /\
  snd (POST_games game db) = db ++ [created_row game].
Proof.
  rewrite POST_games_cases.
  destruct (negb (GameCreate.constraints game)); [now left|].
  destruct (negb (min_length_1 _)); [now left|].
  destruct (negb (sqlite_integer _)); [now left|].
  destruct (select_by_name db (GameCreate.name game)); [now left|].
  now right.
Qed.

(** Every route leaves the names in the table unique. *)
Lemma routes_keep_primary_key (db : Table) :
  primary_key db ->
  (forall offset limit, primary_key (snd (GET_games offset limit db))) /\
  (forall name, primary_key (snd (GET_game name db))) /\
  (forall game, primary_key (snd (POST_games game db))) /\
  (forall name game, primary_key (snd (PUT_game name game db))) /\
  (forall name game, primary_key (snd (PATCH_game name game db))) /\
  (forall name, primary_key (snd (DELETE_game name db))).
Proof.
  intros Hpk. repeat split.
  - intros offset limit. unfold GET_games.
    destruct (_ <=? _); [|exact Hpk].
    unfold route, read_games. unfold_session. cbn [database].
    destruct (sqlite_integer _ && sqlite_integer _); [|exact Hpk].
    destruct (as_GamePublic_list _); exact Hpk.
  - intros name.
    destruct (select_by_name db name) as [old|] eqn:Hsel.
    + now rewrite (GET_game_stored _ _ _ Hsel).
    + now destruct (absent_name db name GameUpdate.empty Hsel) as (-> & _).
  - intros game.
    destruct (POST_games_table db game) as [->|[Hsel ->]]; [exact Hpk|].
    now apply primary_key_insert.
  - intros name game. unfold primary_key.
    destruct (rewritten_names _ _ (PUT_game_rewrites db name game)) as [-> _].
    exact Hpk.
  - intros name game. unfold primary_key.
    destruct (rewritten_names _ _ (PATCH_game_rewrites db name game)) as [-> _].
    exact Hpk.
  - intros name.
    destruct (select_by_name db name) as [old|] eqn:Hsel.
    + rewrite (DELETE_game_stored _ _ _ Hsel). now apply primary_key_delete.
    + destruct (absent_name db name GameUpdate.empty Hsel) as (_ & _ & _ & ->).
      exact Hpk.
Qed.


(** * Further properties of the routes *)

(** ** Responses of stored rows *)

Lemma GamePublic_validate_load (r : row) :
  GamePublic_validate (load r) =
  match row_public r with
  | Some p => inr p
  | None => inl ResponseValidationError
  end.
Proof.
  unfold GamePublic_validate, row_public, load. cbn -[min_length_1].
  destruct (c_platforms r); [|reflexivity].
  destruct (min_length_1 (c_studio r)); reflexivity.
Qed.

Lemma respond_GamePublic_load (success : Z) (r : row) :
  respond_GamePublic success (load r) =
  match row_public r with
  | Some p => mkResponse success (JSON_game p)
  | None => mkResponse 500 Internal_Server_Error
  end.
Proof.
  unfold respond_GamePublic, as_GamePublic.
  rewrite GamePublic_validate_load. now destruct (row_public r).
Qed.

Lemma valid_row_public (r : row) :
  valid_row r = true -> exists p, row_public r = Some p.
Proof.
  unfold valid_row, row_public. intros H.
  apply andb_prop in H as [H Hp]. apply andb_prop in H as [_ Hs].
  destruct (c_platforms r); [|discriminate]. rewrite Hs. eauto.
Qed.

Lemma select_by_name_In (db : Table) (name : string) (r : row) :
  select_by_name db name = Some r -> In r db.
Proof.
  unfold select_by_name. intros H. now apply find_some in H.
Qed.

(** ** Listing, further *)

Lemma GET_games_defaults (offset limit : option Z) (db : Table) :
  GET_games offset limit db =
  GET_games (Some (default 0 offset)) (Some (default 100 limit)) db.
Proof. reflexivity. Qed.

Lemma GET_games_too_many (offset limit : Z) (db : Table) :
  100 < limit ->
  GET_games (Some offset) (Some limit) db = (unprocessable, db).
Proof.
  intros Hl. unfold GET_games. cbn [default].
  destruct (Z.leb_spec limit 100); [lia | reflexivity].
Qed.

Lemma GamePublic_validate_all_app (gs1 gs2 : list Game.t) :
  GamePublic_validate_all (gs1 ++ gs2) =
  match GamePublic_validate_all gs1 with
  | inl e => inl e
  | inr ps1 =>
      match GamePublic_validate_all gs2 with
      | inl e => inl e
      | inr ps2 => inr (ps1 ++ ps2)
      end
  end.
Proof.
  induction gs1 as [|g gs1 IH]; simpl.
  - now destruct (GamePublic_validate_all gs2).
  - destruct (GamePublic_validate g); [reflexivity|].
    rewrite IH. destruct (GamePublic_validate_all gs1); [reflexivity|].
    now destruct (GamePublic_validate_all gs2).
Qed.

Lemma GamePublic_validate_all_valid (rows : list row) :
  Forall (fun r => valid_row r = true) rows ->
  exists gs,
    GamePublic_validate_all (map load rows) = inr gs /\
    map Some gs = map row_public rows.
Proof.
  induction 1 as [|r rows Hr _ (gs & IH & Hgs)]; simpl.
  - now exists [].
  - rewrite GamePublic_validate_load.
    destruct (valid_row_public r Hr) as [p Hp]. rewrite Hp, IH.
    exists (p :: gs). simpl. now rewrite Hgs.
Qed.

Lemma firstn_add {A} (n m : nat) (l : list A) :
  firstn (n + m) l = firstn n l ++ firstn m (skipn n l).
Proof.
  revert l. induction n as [|n IH]; intros [|a l]; simpl;
    try reflexivity.
  - now rewrite firstn_nil.
  - now rewrite IH.
Qed.

Lemma skipn_add {A} (n m : nat) (l : list A) :
  skipn (n + m) l = skipn m (skipn n l).
Proof.
  revert l. induction n as [|n IH]; intros [|a l]; simpl;
    try reflexivity.
  - now rewrite skipn_nil.
  - apply IH.
Qed.

Lemma limit_offset_pages {A} (offset k l : Z) (rows : list A) :
  0 <= offset -> 0 <= k -> 0 <= l ->
  limit_offset (k + l) offset rows =
  limit_offset k offset rows ++ limit_offset l (offset + k) rows.
Proof.
  intros Ho Hk Hl. unfold limit_offset.
  destruct (Z.ltb_spec (k + l) 0); [lia|].
  destruct (Z.ltb_spec k 0); [lia|].
  destruct (Z.ltb_spec l 0); [lia|].
  rewrite !Z2Nat.inj_add by lia.
  now rewrite firstn_add, skipn_add.
Qed.

Lemma limit_offset_sublist {A} (limit offset : Z) (rows : list A) (a : A) :
  In a (limit_offset limit offset rows) -> In a rows.
Proof.
  unfold limit_offset. intros H.
  destruct (limit <? 0).
  - rewrite <- (firstn_skipn (Z.to_nat offset) rows).
    apply in_or_app. now right.
  - rewrite <- (firstn_skipn (Z.to_nat offset) rows).
    apply in_or_app. right.
    rewrite <- (firstn_skipn (Z.to_nat limit) (skipn _ rows)).
    apply in_or_app. now left.
Qed.

(** X1: a list request that is answered with games and whose limit (100
    when the parameter is left out) is not negative returns at most that
    many games, hence never more than 100. *)
Theorem list_is_bounded_by_limit (offset limit : option Z) (db db' : Table)
    (gs : list GamePublic.t) :
  0 <= default 100 limit ->
  GET_games offset limit db = (mkResponse 200 (JSON_games gs), db') ->
  Z.of_nat (List.length gs) <= default 100 limit /\
  Z.of_nat (List.length gs) <= 100.
Proof.
  intros Hl. rewrite GET_games_defaults.
  destruct (Z.le_gt_cases (default 100 limit) 100) as [Hu|Hu].
  - rewrite (GET_games_run _ _ _ Hu).
    destruct (sqlite_integer _ && sqlite_integer _); [|discriminate].
    unfold as_GamePublic_list.
    destruct (GamePublic_validate_all _) as [e|ps] eqn:Hall.
    + destruct e; discriminate.
    + intros [= <- _].
      rewrite (GamePublic_validate_all_length _ _ Hall), List.length_map.
      pose proof (limit_offset_length (default 100 limit) (default 0 offset)
                    db Hl).
      lia.
  - rewrite (GET_games_too_many _ _ _ Hu).
    discriminate.
Qed.

Lemma list_is_bounded_by_limit_witness :
  Z.of_nat (List.length [chrono_trigger_public]) <= 1 /\
  Z.of_nat (List.length [chrono_trigger_public]) <= 100.
Proof.
  apply (list_is_bounded_by_limit None (Some 1)
           [chrono_trigger_row; secret_of_mana_row]
           [chrono_trigger_row; secret_of_mana_row]).
  - cbn. lia.
  - reflexivity.
Defined.

Lemma get_routes_only_read_table (db : Table) :
  (forall offset limit, snd (GET_games offset limit db) = db) /\
  (forall game_name, snd (GET_game game_name db) = db).
Proof.
  split.
  - intros offset limit. rewrite GET_games_defaults.
    destruct (Z.le_gt_cases (default 100 limit) 100) as [Hu|Hu].
    + rewrite (GET_games_run _ _ _ Hu). reflexivity.
    + now rewrite (GET_games_too_many _ _ _ Hu).
  - intros name. destruct (select_by_name db name) as [old|] eqn:Hsel.
    + now rewrite (GET_game_stored _ _ _ Hsel).
    + now destruct (absent_name db name GameUpdate.empty Hsel) as (-> & _).
Qed.

(** X2: the two GET routes never write: whatever the parameters, the table
    after the request is the table before.  A list request whose limit is
    above 100 is answered 422. *)
Theorem get_routes_only_read (db : Table) :
  (forall offset limit, snd (GET_games offset limit db) = db) /\
  (forall game_name, snd (GET_game game_name db) = db) /\
  (forall offset limit,
      100 < limit ->
      GET_games offset (Some limit) db = (mkResponse 422 Validation_errors, db)).
Proof.
  repeat split.
  - intros offset limit. rewrite GET_games_defaults.
    destruct (Z.le_gt_cases (default 100 limit) 100) as [Hu|Hu].
    + rewrite (GET_games_run _ _ _ Hu). reflexivity.
    + now rewrite (GET_games_too_many _ _ _ Hu).
  - intros name. destruct (select_by_name db name) as [old|] eqn:Hsel.
    + now rewrite (GET_game_stored _ _ _ Hsel).
    + now destruct (absent_name db name GameUpdate.empty Hsel) as (-> & _).
  - intros offset limit Hl. rewrite GET_games_defaults.
    now apply GET_games_too_many.
Qed.

Lemma get_routes_only_read_witness :
  GET_games None (Some 101) [chrono_trigger_row] =
  (mkResponse 422 Validation_errors, [chrono_trigger_row]).
Proof.
  apply (get_routes_only_read [chrono_trigger_row]). lia.
Defined.

(** X3: consecutive pages compose.  When the page of [k] games at
    [offset] and the page of [l] games at [offset + k] are both answered
    200, the page of [k + l] games at [offset] is answered 200 with the
    first page followed by the second: paging neither loses nor repeats a
    game. *)
Theorem consecutive_pages_compose (offset k l : Z) (db db1 db2 : Table)
    (gs1 gs2 : list GamePublic.t) :
  0 <= offset -> 0 <= k -> 0 <= l -> k + l <= 100 ->
  GET_games (Some offset) (Some k) db = (mkResponse 200 (JSON_games gs1), db1) ->
  GET_games (Some (offset + k)) (Some l) db =
  (mkResponse 200 (JSON_games gs2), db2) ->
  GET_games (Some offset) (Some (k + l)) db =
  (mkResponse 200 (JSON_games (gs1 ++ gs2)), db).
Proof.
  intros Ho Hk Hl Hu.
  rewrite !GET_games_run by lia.
  destruct (sqlite_integer k && sqlite_integer offset) eqn:E1;
    [|discriminate].
  destruct (sqlite_integer l && sqlite_integer (offset + k));
    [|intros _; discriminate].
  assert (sqlite_integer (k + l) && sqlite_integer offset = true) as ->.
  { apply andb_true_iff in E1 as [_ ->]. rewrite andb_true_r.
    apply sqlite_integer_spec.
    assert (2 ^ 63 = 9223372036854775808) as -> by reflexivity. lia. }
  rewrite (limit_offset_pages offset k l db Ho Hk Hl), map_app.
  unfold as_GamePublic_list. rewrite GamePublic_validate_all_app.
  destruct (GamePublic_validate_all (map load (limit_offset k offset db)))
    as [e1|ps1]; [destruct e1; discriminate|].
  intros [= <- _].
  destruct (GamePublic_validate_all (map load (limit_offset l (offset + k) db)))
    as [e2|ps2]; [destruct e2; discriminate|].
  now intros [= <- _].
Qed.

Lemma consecutive_pages_compose_witness :
  GET_games (Some 0) (Some (1 + 1)) [chrono_trigger_row; secret_of_mana_row] =
  (mkResponse 200
     (JSON_games
        ([chrono_trigger_public] ++
         [GamePublic.mk (mkdate 1993 8 6) "Square" 9 ["SNES"] "Secret of Mana"])),
   [chrono_trigger_row; secret_of_mana_row]).
Proof.
  apply (consecutive_pages_compose 0 1 1
           [chrono_trigger_row; secret_of_mana_row]
           [chrono_trigger_row; secret_of_mana_row]
           [chrono_trigger_row; secret_of_mana_row]);
    try lia; reflexivity.
Defined.

(** X4: a page past the end of the table, or a page of limit 0, is not an
    error: when the limit is at most 100 and the limit and the offset fit
    a signed 64-bit integer, the answer is 200 with the empty list. *)
Theorem page_past_the_end_is_empty (offset limit : Z) (db : Table) :
  limit <= 100 ->
  sqlite_integer limit = true ->
  sqlite_integer offset = true ->
  Z.of_nat (List.length db) <= offset \/ limit = 0 ->
  GET_games (Some offset) (Some limit) db =
  (mkResponse 200 (JSON_games []), db).
Proof.
  intros Hu Hlimit Hoffset Hcase.
  rewrite (GET_games_run _ _ _ Hu), Hlimit, Hoffset. cbn [andb].
  assert (limit_offset limit offset db = []) as ->; [|reflexivity].
  unfold limit_offset. destruct Hcase as [Ho| ->].
  - rewrite skipn_all2 by lia. destruct (limit <? 0); [reflexivity|].
    apply firstn_nil.
  - reflexivity.
Qed.

Lemma page_past_the_end_is_empty_witness :
  GET_games (Some 5) (Some 10) [chrono_trigger_row] =
  (mkResponse 200 (JSON_games []), [chrono_trigger_row]).
Proof.
  apply (page_past_the_end_is_empty 5 10 [chrono_trigger_row]).
  - lia.
  - reflexivity.
  - reflexivity.
  - left. cbn. lia.
Defined.

(** ** Creation, further *)

(** X5: what a creation payload with an empty string gets.  An empty
    studio is refused by the validation of the body, 422.  An empty name
    passes that validation, because [GameCreate] declares [name] as a bare
    [str], and is refused inside the handler by [Game.model_validate]:
    the answer is 500.  Neither writes. *)
Theorem post_with_empty_studio_or_name (db : Table) (game : GameCreate.t) :
  (GameCreate.studio game = EmptyString ->
   POST_games game db = (mkResponse 422 Validation_errors, db)) /\
  (GameCreate.studio game <> EmptyString ->
   GameCreate.name game = EmptyString ->
   POST_games game db = (mkResponse 500 Internal_Server_Error, db)).
Proof.
  split.
  - intros Hs. rewrite POST_games_cases.
    unfold GameCreate.constraints. now rewrite Hs.
  - intros Hs Hn. rewrite POST_games_cases.
    unfold GameCreate.constraints.
    rewrite (min_length_1_true _ Hs), Hn. reflexivity.
Qed.

Lemma post_with_empty_studio_or_name_witness :
  POST_games (GameCreate.mk (mkdate 1995 3 11) EmptyString 10 ["SNES"]
                            "Chrono Trigger") [] =
  (mkResponse 422 Validation_errors, []) /\
  POST_games (GameCreate.mk (mkdate 1995 3 11) "Square" 10 ["SNES"]
                            EmptyString) [] =
  (mkResponse 500 Internal_Server_Error, []).
Proof.
  split.
  - apply (post_with_empty_studio_or_name []). reflexivity.
  - apply (post_with_empty_studio_or_name []); [discriminate | reflexivity].
Defined.

(** X12: a creation never alters a stored game: whatever the payload and
    the outcome, a game found under a name before the request is found
    under that name, with the same fields, after it. *)
Theorem post_keeps_stored_games (db : Table) (game : GameCreate.t)
    (name : string) (r : row) :
  select_by_name db name = Some r ->
  select_by_name (snd (POST_games game db)) name = Some r.
Proof.
  intros Hsel.
  destruct (POST_games_table db game) as [->|[_ ->]]; [exact Hsel|].
  now rewrite select_by_name_app, Hsel.
Qed.

Lemma post_keeps_stored_games_witness :
  select_by_name
    (snd (POST_games
            (GameCreate.mk (mkdate 1993 8 6) "Square" 9 ["SNES"] "Secret of Mana")
            [chrono_trigger_row])) "Chrono Trigger" = Some chrono_trigger_row.
Proof.
  apply post_keeps_stored_games. reflexivity.
Defined.

(** ** Partial update, further *)

Lemma flushed_patched (old : row) (game : GameUpdate.t) :
  flushed (patched old game) =
  match merged (GameUpdate.release_date game) (Some (c_release_date old)),
        merged (GameUpdate.studio game) (Some (c_studio old)),
        merged (GameUpdate.ratings game) (Some (c_ratings old)) with
  | Some d, Some s, Some r =>
      if sqlite_integer r
      then Some (mkrow (c_name old) d s r
                       (merged (GameUpdate.platforms game) (c_platforms old)))
      else None
  | _, _, _ => None
  end.
Proof.
  unfold flushed, binds.
  destruct game as [[|[d|]] [|[s|]] [|[r|]] [|p]]; cbn;
    try reflexivity;
    match goal with
    | |- context [sqlite_integer ?z] => now destruct (sqlite_integer z)
    end.
Qed.

(** The row that a PATCH wrote is the row that the same PATCH writes
    again. *)
Lemma flushed_patched_again (old new : row) (game : GameUpdate.t) :
  flushed (patched old game) = Some new ->
  flushed (patched new game) = Some new.
Proof.
  rewrite !flushed_patched.
  destruct game as [[|[d|]] [|[s|]] [|[r|]] [|p]]; cbn; try discriminate;
    match goal with
    | |- context [sqlite_integer ?z] =>
        destruct (sqlite_integer z) eqn:E; [|discriminate];
        intros [= <-]; cbn; now rewrite ?E
    end.
Qed.

(** X6: a PATCH that sets release_date, studio or ratings to null on a
    stored game is refused by the NOT NULL column when the session
    commits: the answer is 500 and the table is unchanged. *)
Theorem patch_null_in_required_column (db : Table) (name : string) (old : row)
    (game : GameUpdate.t) :
  select_by_name db name = Some old ->
  GameUpdate.release_date game = GameUpdate.Supplied None \/
  GameUpdate.studio game = GameUpdate.Supplied None \/
  GameUpdate.ratings game = GameUpdate.Supplied None ->
  PATCH_game name game db = (mkResponse 500 Internal_Server_Error, db).
Proof.
  intros Hsel Hnull.
  rewrite (PATCH_game_stored _ _ _ _ Hsel), flushed_patched.
  destruct Hnull as [->|[->| ->]]; cbn [merged].
  - reflexivity.
  - now destruct (merged (GameUpdate.release_date game) _).
  - destruct (merged (GameUpdate.release_date game) _); [|reflexivity].
    now destruct (merged (GameUpdate.studio game) (Some (c_studio old))).
Qed.

Lemma patch_null_in_required_column_witness :
  PATCH_game "Chrono Trigger" (ratings_only None) [chrono_trigger_row] =
  (mkResponse 500 Internal_Server_Error, [chrono_trigger_row]).
Proof.
  apply (patch_null_in_required_column _ _ chrono_trigger_row);
    [reflexivity | right; right; reflexivity].
Defined.

(** X7: a PATCH merges.  On a stored game, when no required column is set
    to null and the ratings to write fit a signed 64-bit integer, the row
    under the name afterwards holds, for each of the four fields, the
    supplied value if the body supplied the field and the stored value if
    it did not; the name is the stored one and lookups under other names
    are unchanged.  The answer is 200 with that game when it has the
    shape of [GamePublic], 500 otherwise. *)
Theorem patch_merges_supplied_fields (db : Table) (name : string) (old : row)
    (game : GameUpdate.t) (d : date) (s : string) (r : Z) :
  select_by_name db name = Some old ->
  merged (GameUpdate.release_date game) (Some (c_release_date old)) = Some d ->
  merged (GameUpdate.studio game) (Some (c_studio old)) = Some s ->
  merged (GameUpdate.ratings game) (Some (c_ratings old)) = Some r ->
  sqlite_integer r = true ->
  let new := mkrow name d s r
                   (merged (GameUpdate.platforms game) (c_platforms old)) in
  select_by_name (snd (PATCH_game name game db)) name = Some new /\
  (forall other, other <> name ->
     select_by_name (snd (PATCH_game name game db)) other =
     select_by_name db other) /\
  fst (PATCH_game name game db) =
  match row_public new with
  | Some p => mkResponse 200 (JSON_game p)
  | None => mkResponse 500 Internal_Server_Error
  end.
Proof.
  intros Hsel Hd Hs Hr Hi new.
  pose proof (select_by_name_name _ _ _ Hsel) as Hname.
  rewrite (PATCH_game_stored _ _ _ _ Hsel), flushed_patched, Hd, Hs, Hr, Hi,
    Hname.
  fold new. cbn [fst snd]. repeat split.
  - exact (select_replace_key name new eq_refl db old Hsel).
  - intros other Hne. now apply select_replace_other.
  - apply respond_GamePublic_load.
Qed.

Lemma patch_merges_supplied_fields_witness :
  select_by_name
    (snd (PATCH_game "Chrono Trigger"
            (GameUpdate.mk GameUpdate.Unset
                           (GameUpdate.Supplied (Some "Square Enix"))
                           GameUpdate.Unset
                           (GameUpdate.Supplied (Some ["SNES"; "DS"])))
            [chrono_trigger_row])) "Chrono Trigger" =
  Some (mkrow "Chrono Trigger" (mkdate 1995 3 11) "Square Enix" 10
              (Some ["SNES"; "DS"])).
Proof.
  apply (patch_merges_supplied_fields [chrono_trigger_row] "Chrono Trigger"
           chrono_trigger_row
           (GameUpdate.mk GameUpdate.Unset
                          (GameUpdate.Supplied (Some "Square Enix"))
                          GameUpdate.Unset
                          (GameUpdate.Supplied (Some ["SNES"; "DS"])))
           (mkdate 1995 3 11) "Square Enix" 10); reflexivity.
Defined.

(** ** Updates, composed *)

Lemma replace_row_twice (db : Table) (key : string) (r : row) :
  c_name r = key ->
  map (replace_row key r) (map (replace_row key r) db) =
  map (replace_row key r) db.
Proof.
  intros Hr. rewrite map_map. apply map_ext. intros o.
  unfold replace_row. destruct (has_name key o) eqn:E; [|now rewrite E].
  unfold has_name. now rewrite Hr, String.eqb_refl.
Qed.

Lemma merged_again {A} (f : GameUpdate.field A) (x : option A) :
  merged f (merged f x) = merged f x.
Proof. now destruct f. Qed.

Lemma min_length_1_nonempty (s : string) :
  min_length_1 s = true -> s <> EmptyString.
Proof.
  unfold min_length_1. intros H E. rewrite E in H. discriminate.
Qed.

Lemma full_update_returns_valid (game_name : string) (game : GameUpdate.t)
    (game_update : Game.t) :
  full_update game_name game = inr game_update ->
  exists d s r p,
    game = full_body d s r p /\ game_name <> EmptyString /\ s <> EmptyString.
Proof.
  unfold full_update, GameCreate.init, Game.model_validate.
  destruct game as [[|[d|]] [|[s|]] [|[r|]] [|[p|]]]; cbn -[min_length_1];
    try discriminate.
  destruct (GameCreate.constraints _); [|discriminate].
  cbn -[min_length_1].
  destruct (min_length_1 game_name) eqn:Hn; [|discriminate].
  destruct (min_length_1 s) eqn:Hs; [|discriminate].
  intros _. exists d, s, r, p.
  repeat split; now apply min_length_1_nonempty.
Qed.

Lemma PUT_game_full (db : Table) (name : string) (old : row) (d : date)
    (s : string) (r : Z) (p : list string) :
  select_by_name db name = Some old ->
  name <> EmptyString -> s <> EmptyString -> sqlite_integer r = true ->
  PUT_game name (full_body d s r p) db =
  (mkResponse 200 (JSON_game (GamePublic.mk d s r p name)),
   map (replace_row name (mkrow name d s r (Some p))) db).
Proof.
  intros Hsel Hn Hs Hr.
  rewrite (PUT_game_stored _ _ _ _ Hsel), (full_update_valid _ _ _ _ _ Hn Hs).
  rewrite flushed_replaced, Hr. rewrite respond_GamePublic_load.
  unfold row_public. cbn -[min_length_1].
  now rewrite (min_length_1_true _ Hs).
Qed.

(** The two outcomes of a PUT on a stored name. *)
Lemma PUT_game_cases (db : Table) (name : string) (old : row)
    (game : GameUpdate.t) :
  select_by_name db name = Some old ->
  PUT_game name game db = (mkResponse 500 Internal_Server_Error, db) \/
  exists d s r p,
    game = full_body d s r p /\ name <> EmptyString /\ s <> EmptyString /\
    sqlite_integer r = true /\
    PUT_game name game db =
    (mkResponse 200 (JSON_game (GamePublic.mk d s r p name)),
     map (replace_row name (mkrow name d s r (Some p))) db).
Proof.
  intros Hsel.
  destruct (full_update name game) as [e|gu] eqn:Hfull.
  - left. now rewrite (PUT_game_stored _ _ _ _ Hsel), Hfull.
  - apply full_update_returns_valid in Hfull as (d & s & r & p & -> & Hn & Hs).
    destruct (sqlite_integer r) eqn:Hr.
    + right. exists d, s, r, p. repeat split; try assumption.
      now apply (PUT_game_full db name old).
    + left. rewrite (PUT_game_stored _ _ _ _ Hsel).
      rewrite (full_update_valid _ _ _ _ _ Hn Hs), flushed_replaced, Hr.
      reflexivity.
Qed.

(** X8: a PATCH is idempotent: sent a second time, on the table the first
    one left, it gives the same answer and leaves the same table. *)
Theorem patch_twice_is_patch_once (db : Table) (name : string)
    (game : GameUpdate.t) :
  PATCH_game name game (snd (PATCH_game name game db)) =
  PATCH_game name game db.
Proof.
  destruct (select_by_name db name) as [old|] eqn:Hsel.
  - pose proof (select_by_name_name _ _ _ Hsel) as Hname.
    rewrite (PATCH_game_stored _ _ _ _ Hsel).
    destruct (flushed (patched old game)) as [new|] eqn:Hrow; cbn [snd].
    + assert (c_name new = name) as Hnew
        by (rewrite (flushed_name _ _ Hrow); exact Hname).
      pose proof (select_replace_key name new Hnew db old Hsel) as Hsel'.
      rewrite (PATCH_game_stored _ _ _ _ Hsel').
      rewrite (flushed_patched_again _ _ _ Hrow).
      now rewrite replace_row_twice.
    + now rewrite (PATCH_game_stored _ _ _ _ Hsel), Hrow.
  - destruct (absent_name db name game Hsel) as (_ & _ & H & _).
    rewrite H. cbn [snd]. exact H.
Qed.

(** X9: a PUT is idempotent: sent a second time, on the table the first
    one left, it gives the same answer and leaves the same table. *)
Theorem put_twice_is_put_once (db : Table) (name : string)
    (game : GameUpdate.t) :
  PUT_game name game (snd (PUT_game name game db)) = PUT_game name game db.
Proof.
  destruct (select_by_name db name) as [old|] eqn:Hsel.
  - destruct (PUT_game_cases db name old game Hsel)
      as [H|(d & s & r & p & -> & Hn & Hs & Hr & H)].
    + rewrite H. cbn [snd]. exact H.
    + rewrite H. cbn [snd].
      set (new := mkrow name d s r (Some p)).
      pose proof (select_replace_key name new eq_refl db old Hsel) as Hsel'.
      rewrite (PUT_game_full _ _ _ d s r p Hsel' Hn Hs Hr).
      fold new. now rewrite replace_row_twice.
  - destruct (absent_name db name game Hsel) as (_ & H & _).
    rewrite H. cbn [snd]. exact H.
Qed.

(** X10: reading after writing.  When a PUT or a PATCH is answered 200, a
    GET of the same name on the table it left is answered 200 with the
    very game the update returned, and changes nothing. *)
Theorem get_after_update_returns_it (db : Table) (name : string)
    (game : GameUpdate.t) :
  (status_code (fst (PUT_game name game db)) = 200 ->
   GET_game name (snd (PUT_game name game db)) = PUT_game name game db) /\
  (status_code (fst (PATCH_game name game db)) = 200 ->
   GET_game name (snd (PATCH_game name game db)) = PATCH_game name game db).
Proof.
  destruct (select_by_name db name) as [old|] eqn:Hsel.
  - pose proof (select_by_name_name _ _ _ Hsel) as Hname. split.
    + destruct (PUT_game_cases db name old game Hsel)
        as [H|(d & s & r & p & -> & Hn & Hs & Hr & H)]; rewrite H;
        cbn [fst snd status_code]; [discriminate|].
      intros _. set (new := mkrow name d s r (Some p)).
      rewrite (GET_game_stored _ _ new
                 (select_replace_key name new eq_refl db old Hsel)).
      rewrite respond_GamePublic_load. unfold row_public.
      cbn -[min_length_1]. now rewrite (min_length_1_true _ Hs).
    + rewrite (PATCH_game_stored _ _ _ _ Hsel).
      destruct (flushed (patched old game)) as [new|] eqn:Hrow;
        cbn [fst snd status_code]; [|discriminate].
      intros _.
      assert (c_name new = name) as Hnew
        by (rewrite (flushed_name _ _ Hrow); exact Hname).
      now rewrite (GET_game_stored _ _ new
                     (select_replace_key name new Hnew db old Hsel)).
  - destruct (absent_name db name game Hsel) as (_ & -> & -> & _).
    split; discriminate.
Qed.

Lemma get_after_update_returns_it_witness :
  GET_game "Chrono Trigger"
    (snd (PATCH_game "Chrono Trigger" (ratings_only (Some 9))
            [chrono_trigger_row])) =
  PATCH_game "Chrono Trigger" (ratings_only (Some 9)) [chrono_trigger_row].
Proof.
  apply (get_after_update_returns_it [chrono_trigger_row] "Chrono Trigger"
           (ratings_only (Some 9))).
  reflexivity.
Defined.

(** ** Deletion, further *)

Lemma select_filter_other (db : Table) (key other : string) :
  other <> key ->
  select_by_name (filter (fun r => negb (has_name key r)) db) other =
  select_by_name db other.
Proof.
  intros Hne. unfold select_by_name.
  induction db as [|r db IH]; simpl; [reflexivity|].
  destruct (has_name key r) eqn:E; simpl.
  - assert (has_name other r = false) as ->; [|exact IH].
    unfold has_name in *. apply String.eqb_eq in E. rewrite E.
    apply String.eqb_neq. congruence.
  - destruct (has_name other r); [reflexivity | exact IH].
Qed.

Lemma DELETE_game_table (db : Table) (name : string) :
  snd (DELETE_game name db) = filter (fun r => negb (has_name name r)) db.
Proof.
  destruct (select_by_name db name) as [old|] eqn:Hsel.
  - now rewrite (DELETE_game_stored _ _ _ Hsel).
  - destruct (absent_name db name GameUpdate.empty Hsel) as (_ & _ & _ & ->).
    cbn [snd]. unfold select_by_name in Hsel.
    induction db as [|r db IH]; simpl in *; [reflexivity|].
    destruct (has_name name r); [discriminate|].
    simpl. f_equal. now apply IH.
Qed.

(** X11: a DELETE touches the named game only: whatever its outcome, the
    lookup under any other name gives after the request what it gave
    before. *)
Theorem delete_keeps_other_games (db : Table) (name other : string) :
  other <> name ->
  select_by_name (snd (DELETE_game name db)) other = select_by_name db other.
Proof.
  intros Hne. rewrite DELETE_game_table. now apply select_filter_other.
Qed.

Lemma delete_keeps_other_games_witness :
  select_by_name
    (snd (DELETE_game "Chrono Trigger" [chrono_trigger_row; secret_of_mana_row]))
    "Secret of Mana" =
  select_by_name [chrono_trigger_row; secret_of_mana_row] "Secret of Mana".
Proof.
  apply (delete_keeps_other_games [chrono_trigger_row; secret_of_mana_row]
           "Chrono Trigger" "Secret of Mana").
  discriminate.
Defined.

(** X13: the name of a deleted game is free again.  After the DELETE of a
    stored game, a POST of a valid payload under that name, with ratings
    that fit a signed 64-bit integer, is answered 201 with the payload's
    fields, and the game is stored with them. *)
Theorem delete_then_create_again (db : Table) (old : row) (game : GameCreate.t) :
  select_by_name db (GameCreate.name game) = Some old ->
  GameCreate.name game <> EmptyString ->
  GameCreate.studio game <> EmptyString ->
  sqlite_integer (GameCreate.ratings game) = true ->
  let db' := snd (DELETE_game (GameCreate.name game) db) in
  fst (POST_games game db') = mkResponse 201 (JSON_game (public_view game)) /\
  select_by_name (snd (POST_games game db')) (GameCreate.name game) =
  Some (created_row game).
Proof.
  intros Hsel Hn Hs Hr db'. subst db'. rewrite DELETE_game_table.
  rewrite (POST_games_fresh _ game Hn Hs Hr (select_filter_key db _)).
  cbn [fst snd]. split; [reflexivity|].
  rewrite select_by_name_app, select_filter_key.
  unfold has_name. cbn. now rewrite String.eqb_refl.
Qed.

Lemma delete_then_create_again_witness :
  fst (POST_games chrono_trigger
         (snd (DELETE_game "Chrono Trigger" [chrono_trigger_row]))) =
  mkResponse 201 (JSON_game chrono_trigger_public).
Proof.
  apply (delete_then_create_again [chrono_trigger_row] chrono_trigger_row
           chrono_trigger);
    [reflexivity | discriminate | discriminate | reflexivity].
Defined.

(** ** Failed writes *)

(** X14: a POST, a PUT or a DELETE that is not answered with its success
    status has written nothing: the table is the one before the
    request. *)
Theorem failed_write_changes_nothing (db : Table) :
  (forall game,
      status_code (fst (POST_games game db)) <> 201 ->
      snd (POST_games game db) = db) /\
  (forall name game,
      status_code (fst (PUT_game name game db)) <> 200 ->
      snd (PUT_game name game db) = db) /\
  (forall name,
      status_code (fst (DELETE_game name db)) <> 200 ->
      snd (DELETE_game name db) = db).
Proof.
  repeat split.
  - intros game. rewrite POST_games_cases.
    destruct (negb (GameCreate.constraints game)); [reflexivity|].
    destruct (negb (min_length_1 _)); [reflexivity|].
    destruct (negb (sqlite_integer _)); [reflexivity|].
    destruct (is_some _); [reflexivity|].
    cbn. intros H. now contradiction H.
  - intros name game.
    destruct (select_by_name db name) as [old|] eqn:Hsel.
    + destruct (PUT_game_cases db name old game Hsel)
        as [H|(d & s & r & p & _ & _ & _ & _ & H)]; rewrite H; [reflexivity|].
      cbn. intros E. now contradiction E.
    + now destruct (absent_name db name game Hsel) as (_ & -> & _).
  - intros name.
    destruct (select_by_name db name) as [old|] eqn:Hsel.
    + rewrite (DELETE_game_stored _ _ _ Hsel). cbn.
      intros E. now contradiction E.
    + now destruct (absent_name db name GameUpdate.empty Hsel)
        as (_ & _ & _ & ->).
Qed.

Lemma failed_write_changes_nothing_witness :
  snd (PUT_game "Chrono Trigger" (ratings_only (Some 3)) [chrono_trigger_row]) =
  [chrono_trigger_row].
Proof.
  apply (failed_write_changes_nothing [chrono_trigger_row]).
  cbn. lia.
Defined.

(** ** Invariants of the table *)

Lemma serve_table (request : Request) (requests : list Request) (db : Table) :
  snd (serve (request :: requests) db) =
  snd (serve requests (snd (Main.app request db))).
Proof.
  cbn [serve]. destruct (Main.app request db) as [response db'].
  cbn [snd]. now destruct (serve requests db').
Qed.

Lemma app_keeps_primary_key (request : Request) (db : Table) :
  primary_key db -> primary_key (snd (Main.app request db)).
Proof.
  intros Hpk.
  destruct (routes_keep_primary_key db Hpk) as (H1 & H2 & H3 & H4 & H5 & H6).
  destruct request; cbn [Main.app]; auto.
Qed.

Lemma POST_games_created (db : Table) (game : GameCreate.t) :
  snd (POST_games game db) = db \/
  snd (POST_games game db) = db ++ [created_row game] /\
  valid_row (created_row game) = true /\
  sqlite_integer (c_ratings (created_row game)) = true.
Proof.
  rewrite POST_games_cases. unfold GameCreate.constraints.
  destruct (min_length_1 (GameCreate.studio game)) eqn:Hs; [|now left].
  destruct (min_length_1 (GameCreate.name game)) eqn:Hn; [|now left].
  destruct (sqlite_integer (GameCreate.ratings game)) eqn:Hr; [|now left].
  cbn [negb]. destruct (is_some _); [now left|].
  right. split; [reflexivity|]. split; [|exact Hr].
  unfold valid_row, created_row. cbn -[min_length_1]. now rewrite Hn, Hs.
Qed.

Lemma app_keeps_names_nonempty (request : Request) (db : Table) :
  Forall (fun r => named_row r = true) db ->
  Forall (fun r => named_row r = true) (snd (Main.app request db)).
Proof.
  intros Hdb.
  assert (forall db', map c_name db' = map c_name db ->
                      Forall (fun r => named_row r = true) db') as Hnames.
  { intros db' E. unfold named_row in *.
    apply (Forall_map c_name (fun n => min_length_1 n = true)).
    rewrite E. now apply Forall_map. }
  destruct request as [offset limit|name|game|name game|name game|name];
    cbn [Main.app].
  - now rewrite (proj1 (get_routes_only_read_table db) offset limit).
  - now rewrite (proj2 (get_routes_only_read_table db) name).
  - destruct (POST_games_created db game) as [->|(-> & Hv & _)]; [exact Hdb|].
    apply Forall_app. split; [exact Hdb|]. constructor; [|constructor].
    unfold valid_row in Hv. apply andb_prop in Hv as [Hv _].
    now apply andb_prop in Hv as [Hv _].
  - apply Hnames.
    now destruct (rewritten_names _ _ (PUT_game_rewrites db name game)).
  - apply Hnames.
    now destruct (rewritten_names _ _ (PATCH_game_rewrites db name game)).
  - rewrite DELETE_game_table. apply Forall_forall. intros r Hin.
    apply filter_In in Hin as [Hin _].
    now apply (proj1 (Forall_forall _ _) Hdb).
Qed.

Lemma app_keeps_rows_valid (request : Request) (db : Table) :
  is_PATCH request = false ->
  Forall (fun r => valid_row r = true) db ->
  Forall (fun r => valid_row r = true) (snd (Main.app request db)).
Proof.
  intros Hreq Hdb.
  destruct request as [offset limit|name|game|name game|name game|name];
    cbn [Main.app]; try discriminate.
  - now rewrite (proj1 (get_routes_only_read_table db) offset limit).
  - now rewrite (proj2 (get_routes_only_read_table db) name).
  - destruct (POST_games_created db game) as [->|(-> & Hv & _)]; [exact Hdb|].
    apply Forall_app. split; [exact Hdb|]. now constructor.
  - destruct (select_by_name db name) as [old|] eqn:Hsel.
    + destruct (PUT_game_cases db name old game Hsel)
        as [H|(d & s & r & p & _ & Hn & Hs & _ & H)]; rewrite H; [exact Hdb|].
      cbn [snd]. apply Forall_map.
      apply (Forall_impl _ (P := fun r => valid_row r = true)); [|exact Hdb].
      intros o Ho. unfold replace_row.
      destruct (has_name name o); [|exact Ho].
      unfold valid_row. cbn -[min_length_1].
      now rewrite (min_length_1_true _ Hn), (min_length_1_true _ Hs).
    + now destruct (absent_name db name game Hsel) as (_ & -> & _).
  - rewrite DELETE_game_table. apply Forall_forall. intros r Hin.
    apply filter_In in Hin as [Hin _].
    now apply (proj1 (Forall_forall _ _) Hdb).
Qed.

(** X15: the key holds over any history.  From a table whose names are
    unique and non-empty, the empty table for one, whatever requests are
    served, PATCH included, the names in the table stay unique and
    non-empty. *)
Theorem served_names_stay_unique_and_nonempty (requests : list Request)
    (db : Table) :
  primary_key db ->
  Forall (fun r => named_row r = true) db ->
  primary_key (snd (serve requests db)) /\
  Forall (fun r => named_row r = true) (snd (serve requests db)).
Proof.
  revert db. induction requests as [|request requests IH]; intros db Hpk Hn.
  - now split.
  - rewrite serve_table. apply IH.
    + now apply app_keeps_primary_key.
    + now apply app_keeps_names_nonempty.
Qed.

Lemma served_names_stay_unique_and_nonempty_witness :
  primary_key
    (snd (serve [POST_games_request chrono_trigger;
                 POST_games_request chrono_trigger;
                 PATCH_game_request "Chrono Trigger" empty_studio;
                 PUT_game_request "Secret of Mana" GameUpdate.empty] [])) /\
  Forall (fun r => named_row r = true)
    (snd (serve [POST_games_request chrono_trigger;
                 POST_games_request chrono_trigger;
                 PATCH_game_request "Chrono Trigger" empty_studio;
                 PUT_game_request "Secret of Mana" GameUpdate.empty] [])).
Proof.
  apply served_names_stay_unique_and_nonempty; constructor.
Defined.

(** X16: without PATCH the stored games stay well formed.  From a table
    in which every row has a non-empty name, a non-empty studio and
    platforms that are not null, whatever GET, POST, PUT and DELETE
    requests are served, every row of the table is still so. *)
Theorem rows_stay_valid_without_patch (requests : list Request) (db : Table) :
  forallb (fun request => negb (is_PATCH request)) requests = true ->
  Forall (fun r => valid_row r = true) db ->
  Forall (fun r => valid_row r = true) (snd (serve requests db)).
Proof.
  revert db. induction requests as [|request requests IH]; intros db Hreq Hdb.
  - exact Hdb.
  - cbn [forallb] in Hreq. apply andb_prop in Hreq as [Hreq Hrest].
    rewrite serve_table. apply IH; [exact Hrest|].
    apply app_keeps_rows_valid; [|exact Hdb].
    now apply negb_true_iff.
Qed.

Lemma rows_stay_valid_without_patch_witness :
  Forall (fun r => valid_row r = true)
    (snd (serve [POST_games_request chrono_trigger;
                 PUT_game_request "Chrono Trigger"
                   (full_body (mkdate 2008 11 20) "Square Enix" 9 ["DS"]);
                 DELETE_game_request "Secret of Mana"] [])).
Proof.
  apply rows_stay_valid_without_patch; [reflexivity | constructor].
Defined.

(** X17: a well-formed table can be read.  When every row has a non-empty
    name, a non-empty studio and platforms that are not null, the GET of a
    stored name is answered 200 with the five fields of its row, and a
    list request whose limit is at most 100, with a limit and an offset
    that fit a signed 64-bit integer, is answered 200 with the public
    views of the rows that the limit and the offset select, in the order
    of the table. *)
Theorem valid_table_is_readable (db : Table) :
  Forall (fun r => valid_row r = true) db ->
  (forall name r,
      select_by_name db name = Some r ->
      exists p,
        c_platforms r = Some p /\
        GET_game name db =
        (mkResponse 200
           (JSON_game (GamePublic.mk (c_release_date r) (c_studio r)
                                     (c_ratings r) p (c_name r))), db)) /\
  (forall offset limit,
      default 100 limit <= 100 ->
      sqlite_integer (default 100 limit) = true ->
      sqlite_integer (default 0 offset) = true ->
      exists gs,
        GET_games offset limit db = (mkResponse 200 (JSON_games gs), db) /\
        map Some gs =
        map row_public (limit_offset (default 100 limit) (default 0 offset) db)).
Proof.
  intros Hdb. split.
  - intros name r Hsel.
    pose proof (proj1 (Forall_forall _ _) Hdb r (select_by_name_In _ _ _ Hsel))
      as Hv.
    unfold valid_row in Hv. apply andb_prop in Hv as [Hv Hp].
    apply andb_prop in Hv as [_ Hs].
    destruct (c_platforms r) as [p|] eqn:Ep; [|discriminate].
    exists p. split; [reflexivity|].
    rewrite (GET_game_stored _ _ _ Hsel), respond_GamePublic_load.
    unfold row_public. now rewrite Ep, Hs.
  - intros offset limit Hu Hlimit Hoffset.
    rewrite GET_games_defaults, (GET_games_run _ _ _ Hu), Hlimit, Hoffset.
    cbn [andb].
    destruct (GamePublic_validate_all_valid
                (limit_offset (default 100 limit) (default 0 offset) db))
      as (gs & Hall & Hgs).
    + apply Forall_forall. intros r Hin.
      apply (proj1 (Forall_forall _ _) Hdb).
      now apply limit_offset_sublist in Hin.
    + exists gs. unfold as_GamePublic_list. now rewrite Hall.
Qed.

Lemma valid_table_is_readable_witness :
  exists p,
    c_platforms chrono_trigger_row = Some p /\
    GET_game "Chrono Trigger" [chrono_trigger_row; secret_of_mana_row] =
    (mkResponse 200
       (JSON_game (GamePublic.mk (mkdate 1995 3 11) "Square" 10 p
                                 "Chrono Trigger")),
     [chrono_trigger_row; secret_of_mana_row]).
Proof.
  apply (valid_table_is_readable [chrono_trigger_row; secret_of_mana_row]).
  - repeat constructor.
  - reflexivity.
Defined.

(** ** PUT and PATCH, related *)

Lemma replace_row_absorbs (db : Table) (key : string) (r r' : row) :
  c_name r' = key ->
  map (replace_row key r) (map (replace_row key r') db) =
  map (replace_row key r) db.
Proof.
  intros Hr'. rewrite map_map. apply map_ext. intros o.
  unfold replace_row. destruct (has_name key o) eqn:E; [|now rewrite E].
  unfold has_name. now rewrite Hr', String.eqb_refl.
Qed.

(** X18: on a stored game, a PATCH whose body supplies the four fields,
    with a non-empty studio, does what the PUT with that body does: the
    same answer, the same table. *)
Theorem full_patch_is_put (db : Table) (name : string) (old : row) (d : date)
    (s : string) (r : Z) (p : list string) :
  select_by_name db name = Some old ->
  name <> EmptyString -> s <> EmptyString ->
  PATCH_game name (full_body d s r p) db = PUT_game name (full_body d s r p) db.
Proof.
  intros Hsel Hn Hs.
  pose proof (select_by_name_name _ _ _ Hsel) as Hname.
  rewrite (PUT_game_stored _ _ _ _ Hsel), (full_update_valid _ _ _ _ _ Hn Hs).
  rewrite flushed_replaced.
  rewrite (PATCH_game_stored _ _ _ _ Hsel), flushed_patched.
  cbn [full_body merged GameUpdate.release_date GameUpdate.studio
       GameUpdate.ratings GameUpdate.platforms].
  now rewrite Hname.
Qed.

Lemma full_patch_is_put_witness :
  PATCH_game "Chrono Trigger"
    (full_body (mkdate 2008 11 20) "Square Enix" 9 ["DS"]) [chrono_trigger_row] =
  PUT_game "Chrono Trigger"
    (full_body (mkdate 2008 11 20) "Square Enix" 9 ["DS"]) [chrono_trigger_row].
Proof.
  apply (full_patch_is_put [chrono_trigger_row] "Chrono Trigger"
           chrono_trigger_row); [reflexivity | discriminate | discriminate].
Defined.

(** X19: a full update discards the partial updates before it.  When a
    PUT is answered 200, sending it after any PATCH of the same name gives
    the same answer and the same table as sending it alone. *)
Theorem put_after_patch_is_put (db : Table) (name : string)
    (patch put : GameUpdate.t) :
  status_code (fst (PUT_game name put db)) = 200 ->
  PUT_game name put (snd (PATCH_game name patch db)) = PUT_game name put db.
Proof.
  destruct (select_by_name db name) as [old|] eqn:Hsel.
  - pose proof (select_by_name_name _ _ _ Hsel) as Hname.
    destruct (PUT_game_cases db name old put Hsel)
      as [H|(d & s & r & p & -> & Hn & Hs & Hr & H)]; rewrite H;
      cbn [fst status_code]; [discriminate|].
    intros _. rewrite (PATCH_game_stored _ _ _ _ Hsel).
    destruct (flushed (patched old patch)) as [r'|] eqn:Hrow; cbn [snd].
    + assert (c_name r' = name) as Hr'
        by (rewrite (flushed_name _ _ Hrow); exact Hname).
      rewrite (PUT_game_full _ _ r' d s r p
                 (select_replace_key name r' Hr' db old Hsel) Hn Hs Hr).
      now rewrite replace_row_absorbs.
    + exact (PUT_game_full _ _ _ d s r p Hsel Hn Hs Hr).
  - destruct (absent_name db name put Hsel) as (_ & -> & _). discriminate.
Qed.

Lemma put_after_patch_is_put_witness :
  PUT_game "Chrono Trigger"
    (full_body (mkdate 2008 11 20) "Square Enix" 9 ["DS"])
    (snd (PATCH_game "Chrono Trigger" empty_studio [chrono_trigger_row])) =
  PUT_game "Chrono Trigger"
    (full_body (mkdate 2008 11 20) "Square Enix" 9 ["DS"]) [chrono_trigger_row].
Proof.
  apply put_after_patch_is_put. reflexivity.
Defined.


(** ** The integers in the table *)




